(** * SSDP codec, Advertiser and Browser: a shallow embedding

    The development follows [src/ssdp.ts] (the [SSDP] socket wrapper and the
    [Payload] classes), [src/advertiser.ts] and [src/browser.ts].

    Text is a list of 8-bit code units.  The platform's [Headers] class only
    accepts byte strings, and every string the codec stores or emits goes
    through it, so this is the range that can be observed.  Numbers are
    IEEE 754 doubles. *)

From Stdlib Require Import Ascii String ZArith List DecimalString.
From Corelib Require Import PrimFloat FloatOps SpecFloat.
From stdpp Require Import gmap list fin_maps sorting.

Open Scope Z_scope.

(** ** Strings *)

Definition lit (s : string) : list ascii := list_ascii_of_string s.

Definition code (c : ascii) : N := N_of_ascii c.

Definition chr (n : N) : ascii := ascii_of_N n.

Definition CR : ascii := chr 13.
Definition LF : ascii := chr 10.
Definition colon : ascii := chr 58.
Definition space : ascii := chr 32.
Definition dquote : ascii := chr 34.

(** White space of [String.prototype.trim] among the 8-bit code units:
    TAB, LF, VT, FF, CR, SP and NBSP. *)
Definition is_ws (c : ascii) : bool :=
  match code c with
  | 9 | 10 | 11 | 12 | 13 | 32 | 160 => true
  | _ => false
  end%N.

Fixpoint trimStart (s : list ascii) : list ascii :=
  match s with
  | c :: s' => if is_ws c then trimStart s' else s
  | [] => []
  end.

Definition trimEnd (s : list ascii) : list ascii := rev (trimStart (rev s)).

Definition trim (s : list ascii) : list ascii := trimEnd (trimStart s).

(** [s.split(sep)] for a one-character separator: never empty. *)
Fixpoint split (sep : ascii) (s : list ascii) : list (list ascii) :=
  match s with
  | [] => [[]]
  | c :: s' =>
      if decide (c = sep) then [] :: split sep s'
      else match split sep s' with
           | h :: t => (c :: h) :: t
           | [] => [[c]]
           end
  end.

(** [parts.join(sep)]. *)
Fixpoint join (sep : list ascii) (parts : list (list ascii)) : list ascii :=
  match parts with
  | [] => []
  | [p] => p
  | p :: rest => p ++ sep ++ join sep rest
  end.

Fixpoint startsWith (s prefix : list ascii) : bool :=
  match prefix, s with
  | [], _ => true
  | p :: prefix', c :: s' => bool_decide (c = p) && startsWith s' prefix'
  | _ :: _, [] => false
  end.

(** [toUpperCase] on one code unit.  Sharp s (223) becomes two letters.
    Micro sign (181) and y-diaeresis (255) have capitals outside the 8-bit
    range; they are left in place, which like their capitals is never part
    of a header name. *)
Definition upper_unit (c : ascii) : list ascii :=
  let n := code c in
  if (97 <=? n)%N && (n <=? 122)%N then [chr (n - 32)]
  else if (n =? 223)%N then [chr 83; chr 83]
  else if (224 <=? n)%N && (n <=? 254)%N && negb (n =? 247)%N then [chr (n - 32)]
  else [c].

Definition toUpperCase (s : list ascii) : list ascii := flat_map upper_unit s.

(** Byte-lowercasing of header names inside [Headers]. *)
Definition lower_unit (c : ascii) : ascii :=
  let n := code c in
  if (65 <=? n)%N && (n <=? 90)%N then chr (n + 32) else c.

Definition toLowerCase (s : list ascii) : list ascii := map lower_unit s.

(** *** Numbers

    A number is an IEEE 754 double, as in the language.  What follows is
    [Number::toString] of ECMAScript in radix 10: the shortest decimal
    that rounds to the number, written plainly or with an exponent. *)

(** Decimal digits of a natural number. *)
Definition digits (n : Z) : list ascii :=
  lit (NilZero.string_of_uint (N.to_uint (Z.to_N n))).

(** The rounding interval of the double [m * 2^e], as numerators over
    the denominator [den]: every real strictly between [lo / den] and
    [hi / den] rounds to it, and so do the two ends when [m] is even.
    [mid / den] is the double itself. *)
Record Interval := mkInterval {
  lo : Z; mid : Z; hi : Z; den : Z; closed : bool
}.

Definition rounding_interval (m : positive) (e : Z) : Interval :=
  let M := Z.pos m in
  let below := if (M =? 2 ^ 52) && (-1074 <? e) then 1 else 2 in
  let up := 2 ^ Z.max (e - 2) 0 in
  mkInterval ((4 * M - below) * up) (4 * M * up) ((4 * M + 2) * up)
             (2 ^ Z.max (2 - e) 0) (Z.even M).

(** The multiples [s * 10^p] inside the interval: the least and the
    greatest [s], and the [s] nearest to the double itself (the even one
    of two equally near). *)
Definition candidates (i : Interval) (p : Z) : Z * Z * Z :=
  let a := den i * 10 ^ Z.max p 0 in
  let b := 10 ^ Z.max (- p) 0 in
  let least := (lo i * b + a - 1) / a in
  let least :=
    if closed i || negb ((lo i * b) mod a =? 0) then least else least + 1 in
  let greatest := (hi i * b) / a in
  let greatest :=
    if closed i || negb ((hi i * b) mod a =? 0) then greatest else greatest - 1 in
  let q := (mid i * b) / a in
  let r := (mid i * b) mod a in
  let nearest := if 2 * r <? a then q
                 else if a <? 2 * r then q + 1
                 else if Z.even q then q else q + 1 in
  (least, greatest, nearest).

(** The shortest decimal [s * 10^p] that rounds to the double: [p] is
    taken as large as it can be, from [p] downwards. *)
Fixpoint shortest (fuel : nat) (i : Interval) (p : Z) : Z * Z :=
  match fuel with
  | O => (0, 0)
  | S fuel' =>
      let '(least, greatest, nearest) := candidates i p in
      if least <=? greatest
      then (Z.max least (Z.min greatest nearest), p)
      else shortest fuel' i (p - 1)
  end.

Definition zeros (n : Z) : list ascii := repeat (chr 48) (Z.to_nat n).

(** The text of a positive finite number with digits [s] and decimal
    exponent [n] (its value is [0.s * 10^n]). *)
Definition format (s n : Z) : list ascii :=
  let ds := digits s in
  let k := Z.of_nat (length ds) in
  if (k <=? n) && (n <=? 21) then ds ++ zeros (n - k)
  else if (0 <? n) && (n <=? 21)
  then take (Z.to_nat n) ds ++ lit "." ++ drop (Z.to_nat n) ds
  else if (-6 <? n) && (n <=? 0) then lit "0." ++ zeros (- n) ++ ds
  else
    let e := (if 0 <? n - 1 then lit "+" else lit "-") ++ digits (Z.abs (n - 1)) in
    if k =? 1 then ds ++ lit "e" ++ e
    else take 1 ds ++ lit "." ++ drop 1 ds ++ lit "e" ++ e.

(** [Number.prototype.toString]. *)
Definition Number_toString (x : float) : list ascii :=
  match Prim2SF x with
  | S754_nan => lit "NaN"
  | S754_zero _ => lit "0"
  | S754_infinity s => (if s then lit "-" else []) ++ lit "Infinity"
  | S754_finite s m e =>
      let i := rounding_interval m e in
      let start := Z.of_nat (length (digits (hi i / den i))) in
      let '(d, p) := shortest 800 i start in
      (if s then lit "-" else [])
      ++ format d (p + Z.of_nat (length (digits d)))
  end.

(** Code unit order, the order in which [Headers] iterates its names. *)
Fixpoint str_leb (a b : list ascii) : bool :=
  match a, b with
  | [], _ => true
  | _ :: _, [] => false
  | x :: a', y :: b' =>
      if (code x <? code y)%N then true
      else if (code y <? code x)%N then false
      else str_leb a' b'
  end.

(** ** The platform's [Headers] class

    A map from lower-cased names to values.  [set] normalises the value,
    then rejects (with a [TypeError], here [None]) a name that is not a
    token or a value holding NUL, CR or LF.  (A name or value with a code
    unit above 255 is refused before that, when it is made a byte string;
    such text is outside [list ascii].)

    Under a name given twice a [Headers] object yields the values joined
    by a comma and a blank; the map holds that joined value.  Set-Cookie
    is the exception: its values are kept apart and [forEach] visits them
    one by one.  The code only ever reads a [Headers] object it was given
    through [forEach] with [setHeader] as the callback, which leaves the
    last Set-Cookie value, so for this name the map holds the last value
    and [forEach] visits that. *)
Module Headers.

Definition is_token_unit (c : ascii) : bool :=
  let n := code c in
  ((48 <=? n) && (n <=? 57) || (65 <=? n) && (n <=? 90)
   || (97 <=? n) && (n <=? 122)
   || bool_decide (n ∈ [33; 35; 36; 37; 38; 39; 42; 43; 45; 46; 94; 95; 96; 124; 126]))%N.

Definition valid_name (name : list ascii) : bool :=
  negb (bool_decide (name = [])) && forallb is_token_unit name.

Definition is_http_ws (c : ascii) : bool :=
  match code c with
  | 9 | 10 | 13 | 32 => true
  | _ => false
  end%N.

Fixpoint strip_start (s : list ascii) : list ascii :=
  match s with
  | c :: s' => if is_http_ws c then strip_start s' else s
  | [] => []
  end.

Definition normalize (value : list ascii) : list ascii :=
  rev (strip_start (rev (strip_start value))).

Definition valid_value (value : list ascii) : bool :=
  forallb (fun c => negb (bool_decide (code c ∈ [0; 10; 13]%N))) value.

Definition set (h : gmap (list ascii) (list ascii)) (name value : list ascii)
  : option (gmap (list ascii) (list ascii)) :=
  let value := normalize value in
  if valid_name name && valid_value value
  then Some (<[toLowerCase name := value]> h)
  else None.

(** [append], as used by [new Headers(record)]. *)
Definition append (h : gmap (list ascii) (list ascii)) (name value : list ascii)
  : option (gmap (list ascii) (list ascii)) :=
  let value := normalize value in
  if valid_name name && valid_value value
  then Some (<[toLowerCase name :=
                 match h !! toLowerCase name with
                 | Some old =>
                     if decide (toLowerCase name = lit "set-cookie") then value
                     else old ++ lit ", " ++ value
                 | None => value
                 end]> h)
  else None.

(** [get], [has] and [delete] are only called with names that are tokens. *)
Definition get (h : gmap (list ascii) (list ascii)) (name : list ascii)
  : option (list ascii) := h !! toLowerCase name.

Definition has (h : gmap (list ascii) (list ascii)) (name : list ascii) : bool :=
  bool_decide (is_Some (h !! toLowerCase name)).

Definition delete (h : gmap (list ascii) (list ascii)) (name : list ascii)
  : gmap (list ascii) (list ascii) := base.delete (toLowerCase name) h.

Definition name_le (a b : list ascii * list ascii) : Prop :=
  str_leb a.1 b.1 = true.

#[export] Instance name_le_dec a b : Decision (name_le a b).
Proof. unfold name_le. apply _. Defined.

(** The (name, value) pairs in the order [forEach] visits them. *)
Definition forEach (h : gmap (list ascii) (list ascii))
  : list (list ascii * list ascii) :=
  merge_sort name_le (map_to_list h).

(** Invariant of a [Headers] object filled by [set]. *)
Definition wf (h : gmap (list ascii) (list ascii)) : Prop :=
  ∀ k v, h !! k = Some v →
    valid_name k = true ∧ toLowerCase k = k ∧
    valid_value v = true ∧ normalize v = v.

(** What holds of a [Headers] object however it was filled: [append] of
    an empty value leaves a joined value that ends in a blank, so the
    last part of [wf] is [set]'s only. *)
Definition accepted (h : gmap (list ascii) (list ascii)) : Prop :=
  ∀ k v, h !! k = Some v →
    valid_name k = true ∧ toLowerCase k = k ∧ valid_value v = true.

End Headers.

(** ** Payloads ([SSDP.Search], [SSDP.Notification], [SSDP.Reply]) *)

Inductive Method := M_SEARCH | NOTIFY | REPLY.

(** [endpoint] is the [host]/[port] pair that only a [Search] carries. *)
Record Payload := mkPayload {
  method : Method;
  isReply : bool;
  _headers : gmap (list ascii) (list ascii);
  endpoint : option (list ascii * Z)
}.

Definition Search (host : list ascii) (port : Z) : Payload :=
  mkPayload M_SEARCH false ∅ (Some (host, port)).

Definition Notification : Payload := mkPayload NOTIFY false ∅ None.

Definition Reply : Payload := mkPayload REPLY true ∅ None.

Definition with_headers (p : Payload) (h : gmap (list ascii) (list ascii)) : Payload :=
  mkPayload (method p) (isReply p) h (endpoint p).

(** [Payload.setHeader]; [None] when [Headers.set] throws. *)
Definition setHeader (p : Payload) (key value : list ascii) : option Payload :=
  let key := toUpperCase (trim key) in
  let value := trim value in
  with_headers p <$> Headers.set (_headers p) key value.

Definition hasHeader (p : Payload) (key : list ascii) : bool :=
  Headers.has (_headers p) (toUpperCase (trim key)).

(** [Payload.getHeader]: [get(key) || undefined], so an empty value reads
    as absent. *)
Definition getHeader (p : Payload) (key : list ascii) : option (list ascii) :=
  match Headers.get (_headers p) (toUpperCase (trim key)) with
  | Some [] => None
  | r => r
  end.




(** One line of the loop in [Payload._decode]. *)
Definition decode_line (h : gmap (list ascii) (list ascii)) (line : list ascii)
  : option (gmap (list ascii) (list ascii)) :=
  match map trim (split colon line) with
  | key :: value =>
      if negb (bool_decide (key = [])) && bool_decide (0 < length value)%nat
      then Headers.set h (toUpperCase key) (trim (join [colon] value))
      else Some h
  | [] => Some h
  end.

Definition payload_lines (payload : list ascii) : list (list ascii) :=
  filter (fun line => (0 < length line)%nat)
         (map trim (drop 1 (split LF payload))).

(** [Payload._decode]; [None] when [Headers.set] throws. *)
Definition _decode (payload : list ascii) : option (gmap (list ascii) (list ascii)) :=
  foldl (fun acc line => acc ≫= fun h => decode_line h line)
        (Some ∅) (payload_lines payload).

Definition Search_decode (payload host : list ascii) (port : Z) : option Payload :=
  with_headers (Search host port) <$> _decode payload.

Definition Notification_decode (payload : list ascii) : option Payload :=
  with_headers Notification <$> _decode payload.

Definition Reply_decode (payload : list ascii) : option Payload :=
  with_headers Reply <$> _decode payload.

Definition request_line (m : Method) : list ascii :=
  match m with
  | REPLY => lit "HTTP/1.1 200 OK"
  | NOTIFY => toUpperCase (lit "notify") ++ lit " * HTTP/1.1"
  | M_SEARCH => toUpperCase (lit "m-search") ++ lit " * HTTP/1.1"
  end.

Definition header_line (kv : list ascii * list ascii) : list ascii :=
  toUpperCase kv.1 ++ lit ": " ++ kv.2.

Section Encode.

(** [String.prototype.localeCompare] is the host's collation; the encoder
    is parametric in it. *)
Variable localeCompare : list ascii → list ascii → Z.

Definition by_key (a b : list ascii * list ascii) : Prop :=
  localeCompare a.1 b.1 ≤ 0.

#[local] Instance by_key_dec a b : Decision (by_key a b).
Proof. unfold by_key. apply _. Defined.

(** [headers.sort((a, b) => a[0].localeCompare(b[0]))]. *)
Definition sorted_headers (p : Payload) : list (list ascii * list ascii) :=
  merge_sort by_key (Headers.forEach (_headers p)).

(** [Payload.toString]. *)
Definition toString (p : Payload) : list ascii :=
  join [CR; LF]
    ([request_line (method p)]
     ++ map header_line (sorted_headers p)
     ++ [[CR; LF]]).

End Encode.

(** A stand-in collation for running examples: code unit order. *)
Fixpoint unit_compare (a b : list ascii) : Z :=
  match a, b with
  | [], [] => 0
  | [], _ :: _ => -1
  | _ :: _, [] => 1
  | x :: a', y :: b' =>
      if (code x <? code y)%N then -1
      else if (code y <? code x)%N then 1
      else unit_compare a' b'
  end.

(** The collation of a usual host.  Node is built with ICU, and under a
    locale that does not tailor it (en-US, for one) [localeCompare]
    follows the root collation of CLDR: of the characters a header name
    can hold, punctuation and symbols come first, then the digits, then
    the letters.  [Headers] hands names over in lower case, so case plays
    no part; any other code unit is put behind these, in code order. *)
Definition collation_order : list ascii :=
  lit "_-!.'*&#%`^+|~$0123456789abcdefghijklmnopqrstuvwxyz".

Definition collation_rank (c : ascii) : N :=
  match list_find (fun x => x = c) collation_order with
  | Some (i, _) => N.of_nat i
  | None => N.of_nat (length collation_order) + code c
  end.

Fixpoint root_compare (a b : list ascii) : Z :=
  match a, b with
  | [], [] => 0
  | [], _ :: _ => -1
  | _ :: _, [] => 1
  | x :: a', y :: b' =>
      if (collation_rank x <? collation_rank y)%N then -1
      else if (collation_rank y <? collation_rank x)%N then 1
      else root_compare a' b'
  end.

(** ** Promises, effects and events *)

Inductive Error :=
  | InvalidWaitTime (wait_time : float)
  | TypeError
  | UnknownTarget (target : list ascii)
  | DecodeError (kind : list ascii).

(** What calling an [async] function gives back: the promise it returns is
    either resolved or rejected.  A function that is not [async] can also
    throw to its caller, which is [Throws] of [Completion]. *)
Inductive Promise (A : Type) :=
  | Resolves (a : A)
  | Rejects (e : Error).
Arguments Resolves {A} a.
Arguments Rejects {A} e.

Inductive Completion (A : Type) :=
  | Returns (a : A)
  | Throws (e : Error).
Arguments Returns {A} a.
Arguments Throws {A} e.

(** A request handed to [socket.send]: the message whose [toBuffer] is
    sent, and the destination ([None]: the multicast group). *)
Record Datagram := mkDatagram {
  message : Payload;
  dst : option (list ascii * Z)
}.

Definition AddressInfo : Type := list ascii * Z.

Inductive Event :=
  | search_event (target : list ascii) (payload : Payload) (remote local : AddressInfo)
  | discover_event (service : list ascii) (payload : Payload) (remote local : AddressInfo)
  | withdraw_event (service : list ascii) (payload : Payload) (remote local : AddressInfo)
  | error_event (e : Error).

(** Observable steps of an Advertiser or Browser, in program order.
    [Send] is a call of [socket.send]; what the transport then does with
    the datagram, and the errors it may report back, are outside this
    development.  [Unhandled] is a rejected promise nobody catches;
    [Released] is [timer.destroy(); socket.destroy()]. *)
Inductive Effect :=
  | Send (d : Datagram)
  | Emit (e : Event)
  | Unhandled (e : Error)
  | Released.

(** [HeadersInit]: a [Headers] instance or a plain record. *)
Inductive HeadersInit :=
  | init_headers (h : gmap (list ascii) (list ascii))
  | init_record (entries : list (list ascii * list ascii)).

(** [headers instanceof Headers ? headers : new Headers(headers)]. *)
Definition to_Headers (init : HeadersInit) : option (gmap (list ascii) (list ascii)) :=
  match init with
  | init_headers h => Some h
  | init_record entries =>
      foldl (fun acc kv => acc ≫= fun h => Headers.append h kv.1 kv.2)
            (Some ∅) entries
  end.

(** [headers.forEach((value, key) => message.setHeader(key, value))]. *)
Definition copy_headers (m : Payload) (h : gmap (list ascii) (list ascii))
  : option Payload :=
  foldl (fun acc kv => acc ≫= fun m => setHeader m kv.1 kv.2)
        (Some m) (Headers.forEach h).

Definition of_option {A} (o : option A) : Promise A :=
  match o with
  | Some a => Resolves a
  | None => Rejects TypeError
  end.

Definition ssdp_discover : list ascii := dquote :: lit "ssdp:discover" ++ [dquote].

(** ** The [SSDP] socket wrapper *)
Module SSDP.

(** [_sendMessage]: the argument of [socket.send]. *)
Definition _sendMessage (m : Payload) (dst : option (list ascii * Z)) : Datagram :=
  mkDatagram m dst.

(** [search]: the request handed to the socket, or the rejection.  The
    guard is two comparisons of doubles, both false of NaN. *)
Definition search (serviceType : list ascii) (wait_time : float)
    (headers : HeadersInit) : Completion (Promise Datagram) :=
  Returns
    (if PrimFloat.ltb wait_time 1%float || PrimFloat.ltb 5%float wait_time
     then Rejects (InvalidWaitTime wait_time)
     else of_option (
       h ← to_Headers headers;
       m ← copy_headers (Search (lit "239.255.255.250") 1900) h;
       m ← setHeader m (lit "MAN") ssdp_discover;
       m ← setHeader m (lit "HOST") (lit "239.255.255.250:1900");
       m ← setHeader m (lit "ST") serviceType;
       m ← setHeader m (lit "MX") (Number_toString wait_time);
       m ← (if hasHeader m (lit "EXT") then Some m else setHeader m (lit "EXT") []);
       Some (_sendMessage m None))).

(** The common body of [notify], [update] and [bye], which differ in NTS
    only.  They are [async] like [search]; the promise they return is all
    that is kept of them. *)
Definition notification (nts serviceType : list ascii) (headers : HeadersInit)
  : Promise Datagram :=
  of_option (
    h ← to_Headers headers;
    m ← copy_headers Notification h;
    m ← setHeader m (lit "HOST") (lit "239.255.255.250:1900");
    m ← setHeader m (lit "NT") serviceType;
    m ← setHeader m (lit "NTS") nts;
    Some (_sendMessage m None)).

Definition notify := notification (lit "ssdp:alive").
Definition update := notification (lit "ssdp:update").
Definition bye := notification (lit "ssdp:byebye").

Definition reply (request response : Payload) : Promise Datagram :=
  Resolves (_sendMessage response (endpoint request)).

(** What the ['message'] handler of the constructor emits. *)
Inductive Emitted :=
  | search_ (payload : Payload) (local remote : AddressInfo)
  | notification_ (payload : Payload) (local remote : AddressInfo)
  | reply_ (payload : Payload) (local remote : AddressInfo)
  | error_ (e : Error).

Definition on_message (msg : list ascii) (local remote : AddressInfo)
  : list Emitted :=
  if startsWith msg (lit "M-SEARCH") then
    match Search_decode msg remote.1 remote.2 with
    | Some payload =>
        if bool_decide (getHeader payload (lit "MAN") = Some ssdp_discover)
           && hasHeader payload (lit "ST")
        then [search_ payload local remote] else []
    | None => [error_ (DecodeError (lit "M-SEARCH"))]
    end
  else if startsWith msg (lit "NOTIFY") then
    match Notification_decode msg with
    | Some payload => [notification_ payload local remote]
    | None => [error_ (DecodeError (lit "NOTIFY"))]
    end
  else
    match Reply_decode msg with
    | Some payload => [reply_ payload local remote]
    | None => [error_ (DecodeError (lit "REPLY"))]
    end.

End SSDP.

(** ** The Advertiser *)
Module Advertiser.

(** [_services] is a [Map]: an association list in insertion order with
    unique keys.  An entry holds the contents of the [Headers] object
    stored under the service.  The code keeps the object itself, so two
    entries that were given one object change together; the table does
    not record which entries share an object, and what is stated of the
    table after a write is stated for objects of the Advertiser's own. *)
Record t := mk {
  uuid : list ascii;
  _services : list (list ascii * gmap (list ascii) (list ascii));
  isDestroyed : bool;
  authenticationProvider : list ascii → bool
}.

Definition with_services (a : t) svcs : t :=
  mk (uuid a) svcs (isDestroyed a) (authenticationProvider a).

Definition map_has {V} (m : list (list ascii * V)) (k : list ascii) : bool :=
  existsb (fun kv => bool_decide (kv.1 = k)) m.

Fixpoint map_get {V} (m : list (list ascii * V)) (k : list ascii) : option V :=
  match m with
  | [] => None
  | (k', v) :: m' => if decide (k' = k) then Some v else map_get m' k
  end.

(** [Map.prototype.set]: an existing key keeps its place. *)
Fixpoint map_set {V} (m : list (list ascii * V)) (k : list ascii) (v : V)
  : list (list ascii * V) :=
  match m with
  | [] => [(k, v)]
  | (k', v') :: m' =>
      if decide (k' = k) then (k, v) :: m' else (k', v') :: map_set m' k v
  end.

Definition map_delete {V} (m : list (list ascii * V)) (k : list ascii)
  : list (list ascii * V) :=
  filter (fun kv => kv.1 ≠ k) m.

(** A call [promise.then(errors => ...)] without a [catch]. *)
Definition fire (p : Promise Datagram) : list Effect :=
  match p with
  | Resolves d => [Send d]
  | Rejects e => [Unhandled e]
  end.

Definition usn (uuid service : list ascii) : list ascii :=
  lit "uuid:" ++ uuid ++ lit "::" ++ service.

Definition uuid_target (uuid : list ascii) : list ascii := lit "uuid:" ++ uuid.

(** [notify_root_devices]. *)
Definition notify_root_devices (a : t) : list Effect :=
  fire (SSDP.notify (lit "upnp:rootdevice")
          (init_record [(lit "USN", usn (uuid a) (lit "upnp:rootdevice"))]))
  ++ fire (SSDP.notify (uuid_target (uuid a))
             (init_record [(lit "USN", uuid_target (uuid a))])).

(** [notify(services)].  [headers.set('USN', ...)] writes into the
    [Headers] object the map holds, so the map is returned as changed;
    the final [bool] is [false] when that [set] throws. *)
Fixpoint notify (id : list ascii)
    (services : list (list ascii * gmap (list ascii) (list ascii)))
  : list Effect * list (list ascii * gmap (list ascii) (list ascii)) * bool :=
  match services with
  | [] => ([], [], true)
  | (service, headers) :: rest =>
      match Headers.set headers (lit "USN") (usn id service) with
      | None => ([], services, false)
      | Some headers' =>
          let '(tr, rest', ok) := notify id rest in
          (fire (SSDP.notify service (init_headers headers')) ++ tr,
           (service, headers') :: rest', ok)
      end
  end.

(** The result of a public method: what it did, the object afterwards,
    and the value returned ([None]: it threw). *)
Definition Step (A : Type) : Type := list Effect * t * option A.

(** [announce]. *)
Definition announce (a : t) (service : list ascii) (headers : HeadersInit)
  : Step unit :=
  match to_Headers headers with
  | None => ([], a, None)
  | Some h =>
      if negb (map_has (_services a) service) then
        match notify (uuid a) [(service, h)] with
        | (tr, [(_, h')], true) =>
            (tr, with_services a (map_set (_services a) service h'), Some tt)
        | (tr, _, _) => (tr, a, None)
        end
      else ([], with_services a (map_set (_services a) service h), Some tt)
  end.

(** [send_goodbye]. *)
Definition send_goodbye (a : t) (service : list ascii) : Promise Datagram :=
  SSDP.bye service (init_record [(lit "USN", usn (uuid a) service)]).

(** [withdraw]. *)
Definition withdraw (a : t) (service : list ascii) : Step bool :=
  if map_has (_services a) service then
    let a' := with_services a (map_delete (_services a) service) in
    (fire (send_goodbye a' service), a', Some true)
  else ([], a, Some false).

(** The [await]s of [send_goodbyes] in a row: the first rejection ends
    the function. *)
Fixpoint await_each (ps : list (Promise Datagram)) : list Effect * option Error :=
  match ps with
  | [] => ([], None)
  | Resolves d :: ps' => let '(tr, r) := await_each ps' in (Send d :: tr, r)
  | Rejects e :: _ => ([], Some e)
  end.

(** [send_goodbyes]. *)
Definition send_goodbyes (a : t) : list Effect * option Error :=
  await_each
    (SSDP.bye (uuid_target (uuid a)) (init_record [(lit "USN", uuid_target (uuid a))])
     :: SSDP.bye (lit "upnp:rootdevice")
          (init_record [(lit "USN", usn (uuid a) (lit "upnp:rootdevice"))])
     :: map (fun kv => send_goodbye a kv.1) (_services a)).

(** [destroy]; the [finally] block runs whether or not the goodbyes
    were all sent. *)
Definition destroy (a : t) : Step unit :=
  if negb (isDestroyed a) then
    let a' := mk (uuid a) (_services a) true (authenticationProvider a) in
    let '(tr, r) := send_goodbyes a' in
    (tr ++ [Released] ++ match r with Some e => [Unhandled e] | None => [] end,
     a', Some tt)
  else ([], a, Some tt).

(** [announceNow]. *)
Definition announceNow (a : t) : Step unit :=
  let tr0 := notify_root_devices a in
  let '(tr, services', ok) := notify (uuid a) (_services a) in
  (tr0 ++ tr, with_services a services', if ok then Some tt else None).

(** The Reply built in the loop body of the private [reply]. *)
Definition reply_message (id service : list ascii)
    (headers : gmap (list ascii) (list ascii)) : option Payload :=
  r ← copy_headers Reply headers;
  r ← setHeader r (lit "ST") service;
  setHeader r (lit "USN") (usn id service).

(** The private [reply]: one Reply per entry of [services]; [None] when
    a [setHeader] throws. *)
Fixpoint reply (a : t) (request : Payload)
    (services : list (list ascii * gmap (list ascii) (list ascii)))
  : list Effect * option bool :=
  match services with
  | [] => ([], Some true)
  | (service, headers) :: rest =>
      match reply_message (uuid a) service headers with
      | None => ([], None)
      | Some r =>
          let '(tr, res) := reply a request rest in
          (fire (SSDP.reply request r) ++ tr, res)
      end
  end.

(** [handle_payload], an [async] method whose promise nobody awaits:
    the [bool] it resolves to, or the rejection. *)
Definition handle_payload (a : t) (payload : Payload) (local remote : AddressInfo)
  : list Effect * Promise bool :=
  let man := getHeader payload (lit "MAN") in
  match getHeader payload (lit "ST") with
  | Some target =>
      if negb (bool_decide (man = Some ssdp_discover)) then ([], Resolves false)
      else if negb (authenticationProvider a remote.1) then ([], Resolves false)
      else
        let service := map_get (_services a) target in
        let answer services :=
          let '(tr, res) := reply a payload services in
          (Emit (search_event target payload remote local) :: tr, of_option res) in
        if decide (target = lit "ssdp:all") then answer (_services a)
        else if decide (target = lit "upnp:rootdevice") then answer [(target, ∅)]
        else if decide (target = uuid_target (uuid a)) then answer [(target, ∅)]
        else match service with
             | Some headers => answer [(target, headers)]
             | None => ([Emit (error_event (UnknownTarget target))], Resolves false)
             end
  | None => ([], Resolves false)
  end.

(** The constructor's wiring of the socket's events. *)
Definition on_socket (a : t) (e : SSDP.Emitted) : list Effect :=
  match e with
  | SSDP.error_ err => [Emit (error_event err)]
  | SSDP.search_ payload local remote =>
      let '(tr, res) := handle_payload a payload local remote in
      tr ++ match res with Rejects err => [Unhandled err] | Resolves _ => [] end
  | _ => []
  end.

(** An inbound datagram, from the socket to the Advertiser's effects. *)
Definition receive (a : t) (msg : list ascii) (local remote : AddressInfo)
  : list Effect :=
  flat_map (on_socket a) (SSDP.on_message msg local remote).

End Advertiser.

(** ** The Browser *)
Module Browser.

(** [_searchTargets], the Subscription Set. *)
Record t := mk {
  _searchTargets : gset (list ascii)
}.

Definition fire (c : Completion (Promise Datagram)) : list Effect :=
  match c with
  | Returns (Resolves d) => [Send d]
  | Returns (Rejects e) => [Unhandled e]
  | Throws e => []
  end.

(** [browse]: [socket.search(target)] with the default wait time and
    no extra headers. *)
Definition browse (searchTargets : list (list ascii)) : list Effect :=
  flat_map (fun target => fire (SSDP.search target 3%float (init_headers ∅)))
           searchTargets.

(** [subscribe]. *)
Definition subscribe (b : t) (service : list ascii) : list Effect * t :=
  let service := if decide (service = lit "*") then lit "ssdp:all" else service in
  ((if negb (bool_decide (service ∈ _searchTargets b)) then browse [service] else []),
   mk ({[service]} ∪ _searchTargets b)).

(** [unsubscribe]. *)
Definition unsubscribe (b : t) (service : list ascii) : t * bool :=
  (mk (_searchTargets b ∖ {[service]}), bool_decide (service ∈ _searchTargets b)).

(** [handle_payload]; the events it emits. *)
Definition handle_payload (b : t) (target : list ascii) (payload : Payload)
    (remote local : AddressInfo) : list Event :=
  if bool_decide (target ∈ _searchTargets b) then
    if isReply payload then [discover_event target payload remote local]
    else
      let nts := getHeader payload (lit "NTS") in
      if bool_decide (nts = Some (lit "ssdp:alive"))
         || bool_decide (nts = Some (lit "ssdp:update"))
      then [discover_event target payload remote local]
      else if bool_decide (nts = Some (lit "ssdp:byebye"))
      then [withdraw_event target payload remote local]
      else []
  else [].

(** The constructor's wiring of the socket's events. *)
Definition on_socket (b : t) (e : SSDP.Emitted) : list Event :=
  match e with
  | SSDP.error_ err => [error_event err]
  | SSDP.notification_ payload local remote =>
      match getHeader payload (lit "NT") with
      | Some target => handle_payload b target payload remote local
      | None => []
      end
  | SSDP.reply_ payload local remote =>
      match getHeader payload (lit "ST") with
      | Some target => handle_payload b target payload remote local
      | None => []
      end
  | SSDP.search_ _ _ _ => []
  end.

(** An inbound datagram, from the socket to the Browser's events. *)
Definition receive (b : t) (msg : list ascii) (local remote : AddressInfo)
  : list Event :=
  flat_map (on_socket b) (SSDP.on_message msg local remote).

End Browser.

(** ** Further methods of [Payload] *)

(** [Payload.deleteHeader]; [None] when [Headers.delete] throws, which it
    does on a name that is not a token. *)
Definition deleteHeader (p : Payload) (key : list ascii) : option Payload :=
  let key := toUpperCase (trim key) in
  if Headers.valid_name key
  then Some (with_headers p (Headers.delete (_headers p) key))
  else None.

(** ** Predicates used in the statements *)

(** A string that [trim] leaves alone: no white space at either end. *)
Definition clean (s : list ascii) : Prop :=
  match s with [] => True | c :: _ => is_ws c = false end.

Definition trimmed (s : list ascii) : Prop := clean s ∧ clean (rev s).

(** The same Advertiser with its destroyed flag forced to [flag]. *)
Definition with_flag (flag : bool) (a : Advertiser.t) : Advertiser.t :=
  Advertiser.mk (Advertiser.uuid a) (Advertiser._services a) flag
    (Advertiser.authenticationProvider a).

Definition step_with_flag {A} (flag : bool) (s : Advertiser.Step A)
  : Advertiser.Step A :=
  let '(tr, a, r) := s in (tr, with_flag flag a, r).



(** All 256 code units, for facts checked unit by unit. *)
Definition all_units : list ascii := map ascii_of_nat (seq 0 256).

(** A header whose places between colons have no white space at their
    ends: the values that one encode/decode cycle leaves as they are. *)
Definition colon_tight (v : list ascii) : Prop :=
  Forall trimmed (split colon v).

(** What [_decode] maintains: a [Headers] object whose values all survive
    another encode/decode cycle. *)
Definition decoded (h : gmap (list ascii) (list ascii)) : Prop :=
  Headers.wf h ∧ ∀ k v, h !! k = Some v → colon_tight v.

(** The headers of the Search that [browse] sends for [target]. *)
Definition browse_headers (target : list ascii) : gmap (list ascii) (list ascii) :=
  {[lit "man" := ssdp_discover;
    lit "host" := lit "239.255.255.250:1900";
    lit "st" := trim target;
    lit "mx" := lit "3";
    lit "ext" := []]}.

Definition browse_search (target : list ascii) : Datagram :=
  mkDatagram (with_headers (Search (lit "239.255.255.250") 1900) (browse_headers target))
    None.

Definition is_decode_error (e : Error) : Prop :=
  match e with DecodeError _ => True | _ => False end.

(** The name under which [subscribe] stores a service. *)
Definition subscribed_as (service : list ascii) : list ascii :=
  if decide (service = lit "*") then lit "ssdp:all" else service.



(** A datagram that is a Notification for [service] of the given kind,
    addressed to the multicast group. *)
Definition notifies (nts service : list ascii) (d : Datagram) : Prop :=
  dst d = None ∧ method (message d) = NOTIFY
  ∧ Headers.get (_headers (message d)) (lit "NT") = Some (trim service)
  ∧ Headers.get (_headers (message d)) (lit "NTS") = Some nts
  ∧ Headers.get (_headers (message d)) (lit "HOST") = Some (lit "239.255.255.250:1900").


(** What [browse] does for one target: a Search, or a rejected promise
    nobody handles when the target cannot be an ST value. *)
Definition browse_effect (target : list ascii) : Effect :=
  if Headers.valid_value (trim target)
  then Send (browse_search target)
  else Unhandled TypeError.

(** A line on which [Headers.set] throws. *)
Definition bad_line (line : list ascii) : Prop := decode_line ∅ line = None.


(** Headers as a caller may hand them over: any record, or a [Headers]
    object. *)
Definition init_ok (headers : HeadersInit) : Prop :=
  match headers with
  | init_headers h => Headers.accepted h
  | init_record _ => True
  end.

(** ** Sample objects on which the statements are run *)

Definition ex_local : AddressInfo := (lit "192.168.1.10", 1900).
Definition ex_remote : AddressInfo := (lit "192.168.1.20", 50000).

Definition ex_browser : Browser.t := Browser.mk {[lit "urn:test:1"]}.

Definition ex_byebye : gmap (list ascii) (list ascii) :=
  {[lit "nt" := lit "urn:test:1"; lit "nts" := lit "ssdp:byebye"]}.

Definition ex_uuid : list ascii := lit "2fac1234-31f8-11b4-a222-08002b34c003".

Definition ex_location : gmap (list ascii) (list ascii) :=
  {[lit "location" := lit "http://192.168.1.10:8080/desc.xml"]}.

Definition ex_advertiser : Advertiser.t :=
  Advertiser.mk ex_uuid [(lit "urn:test:1", ex_location)] false (fun _ => true).

(** A Search that lacks the MAN header. *)
Definition ex_search_no_man : Payload :=
  with_headers (Search ex_remote.1 ex_remote.2) {[lit "st" := lit "urn:test:1"]}.

Definition ex_search_for (target : list ascii) : Payload :=
  with_headers (Search ex_remote.1 ex_remote.2)
    {[lit "man" := ssdp_discover; lit "st" := target]}.




(** A Notification whose SERVER value has blanks around a colon. *)
Definition ex_loose : Payload :=
  with_headers Notification {[lit "server" := lit "a : b"]}.

(** An Advertiser whose authentication hook rejects everybody. *)
Definition ex_closed_advertiser : Advertiser.t :=
  Advertiser.mk ex_uuid [(lit "urn:test:1", ex_location)] false (fun _ => false).




(** ** Facts about strings *)

Lemma trimStart_app_ws (w s : list ascii) :
  forallb is_ws w = true → trimStart (w ++ s) = trimStart s.
Proof.
  induction w as [|c w IH]; simpl; [done|].
  intros [Hc Hw]%andb_prop. rewrite Hc. auto.
Qed.

Lemma trimStart_idem (s : list ascii) : trimStart (trimStart s) = trimStart s.
Proof.
  induction s as [|c s IH]; simpl; [done|].
  destruct (is_ws c) eqn:E; [done|]. simpl. by rewrite E.
Qed.

(** What is left of [trimStart] is empty or starts with a visible unit. *)
Lemma trimStart_head (s : list ascii) :
  match trimStart s with [] => True | c :: _ => is_ws c = false end.
Proof.
  induction s as [|c s IH]; simpl; [done|].
  destruct (is_ws c) eqn:E; [done|]. done.
Qed.

(** [trimStart] only removes a prefix. *)
Lemma trimStart_suffix (s : list ascii) :
  ∃ w, forallb is_ws w = true ∧ s = w ++ trimStart s.
Proof.
  induction s as [|c s [w [Hw Hs]]]; simpl.
  - by exists [].
  - destruct (is_ws c) eqn:E.
    + exists (c :: w). simpl. rewrite E, Hw. split; [done|]. by rewrite <- Hs.
    + by exists [].
Qed.

Lemma clean_trimStart (s : list ascii) : clean s → trimStart s = s.
Proof. destruct s as [|c s]; simpl; [done|]. by intros ->. Qed.

Lemma trimmed_trim (s : list ascii) : trimmed s → trim s = s.
Proof.
  intros [H1 H2]. unfold trim, trimEnd.
  rewrite (clean_trimStart s H1), (clean_trimStart _ H2). apply rev_involutive.
Qed.

Lemma trim_trimmed (s : list ascii) : trimmed (trim s).
Proof.
  unfold trim, trimEnd. set (t := trimStart s).
  assert (Ht : clean t) by apply trimStart_head.
  split.
  - destruct (trimStart_suffix (rev t)) as [w [Hw Hs]].
    assert (E : t = rev (trimStart (rev t)) ++ rev w).
    { rewrite <- rev_app_distr, <- Hs. by rewrite rev_involutive. }
    destruct (rev (trimStart (rev t))) as [|c x]; [done|].
    simpl in E. rewrite E in Ht. exact Ht.
  - rewrite rev_involutive. apply trimStart_head.
Qed.

Lemma trim_idem (s : list ascii) : trim (trim s) = trim s.
Proof. apply trimmed_trim, trim_trimmed. Qed.

Lemma http_ws_is_ws (c : ascii) : Headers.is_http_ws c = true → is_ws c = true.
Proof.
  unfold Headers.is_http_ws, is_ws.
  destruct (code c) as [|p]; [done|].
  do 8 (try destruct p as [p|p|]); done.
Qed.

Lemma clean_strip_start (s : list ascii) : clean s → Headers.strip_start s = s.
Proof.
  destruct s as [|c s]; simpl; [done|]. intros H.
  destruct (Headers.is_http_ws c) eqn:E; [|done].
  apply http_ws_is_ws in E. congruence.
Qed.

Lemma trimmed_normalize (s : list ascii) : trimmed s → Headers.normalize s = s.
Proof.
  intros [H1 H2]. unfold Headers.normalize.
  rewrite (clean_strip_start s H1), (clean_strip_start _ H2). apply rev_involutive.
Qed.

Lemma normalize_trim (s : list ascii) : Headers.normalize (trim s) = trim s.
Proof. apply trimmed_normalize, trim_trimmed. Qed.

(** ** The Browser's classification of inbound traffic *)

Lemma lit_NTS_distinct :
  lit "ssdp:alive" ≠ lit "ssdp:update" ∧ lit "ssdp:alive" ≠ lit "ssdp:byebye"
  ∧ lit "ssdp:update" ≠ lit "ssdp:byebye".
Proof. repeat split; discriminate. Qed.

(** C2. An inbound Reply (target: ST) or Notification (target: NT) whose
    target is absent or not in the Subscription Set produces no event.
    With the target subscribed, a Reply yields one discover event; a
    Notification yields discover for NTS ssdp:alive or ssdp:update,
    withdraw for ssdp:byebye, and nothing for any other or absent NTS. *)
Theorem browser_classification (b : Browser.t)
    (h : gmap (list ascii) (list ascii)) (local remote : AddressInfo) :
  let r := with_headers Reply h in
  let n := with_headers Notification h in
  let on_reply := Browser.on_socket b (SSDP.reply_ r local remote) in
  let on_notification := Browser.on_socket b (SSDP.notification_ n local remote) in
  let nts := getHeader n (lit "NTS") in
  (getHeader r (lit "ST") = None → on_reply = [])
  ∧ (getHeader n (lit "NT") = None → on_notification = [])
  ∧ (∀ t, getHeader r (lit "ST") = Some t → t ∉ Browser._searchTargets b →
       on_reply = [])
  ∧ (∀ t, getHeader n (lit "NT") = Some t → t ∉ Browser._searchTargets b →
       on_notification = [])
  ∧ (∀ t, getHeader r (lit "ST") = Some t → t ∈ Browser._searchTargets b →
       on_reply = [discover_event t r remote local])
  ∧ (∀ t, getHeader n (lit "NT") = Some t → t ∈ Browser._searchTargets b →
       (nts = Some (lit "ssdp:alive") ∨ nts = Some (lit "ssdp:update") →
          on_notification = [discover_event t n remote local])
       ∧ (nts = Some (lit "ssdp:byebye") →
          on_notification = [withdraw_event t n remote local])
       ∧ (nts ≠ Some (lit "ssdp:alive") → nts ≠ Some (lit "ssdp:update") →
          nts ≠ Some (lit "ssdp:byebye") → on_notification = [])).
Proof.
  intros r n on_reply on_notification nts.
  subst on_reply on_notification. unfold Browser.on_socket.
  repeat split.
  - by intros ->.
  - by intros ->.
  - intros t -> Ht. unfold Browser.handle_payload.
    by rewrite bool_decide_eq_false_2.
  - intros t -> Ht. unfold Browser.handle_payload.
    by rewrite bool_decide_eq_false_2.
  - intros t -> Ht. unfold Browser.handle_payload.
    by rewrite bool_decide_eq_true_2.
  - intros Hn. rewrite H. unfold Browser.handle_payload.
    rewrite bool_decide_eq_true_2 by done.
    change (isReply n) with false. cbv iota. fold nts.
    destruct lit_NTS_distinct as (X & Y & Z).
    destruct Hn as [Hn | Hn]; rewrite Hn;
      repeat case_bool_decide; simplify_eq; done.
  - intros Hn. rewrite H. unfold Browser.handle_payload.
    rewrite bool_decide_eq_true_2 by done.
    change (isReply n) with false. cbv iota. fold nts. rewrite Hn.
    destruct lit_NTS_distinct as (X & Y & Z).
    repeat case_bool_decide; simplify_eq; done.
  - intros H1 H2 H3. rewrite H. unfold Browser.handle_payload.
    rewrite bool_decide_eq_true_2 by done.
    change (isReply n) with false. cbv iota. fold nts.
    by rewrite !bool_decide_eq_false_2.
Qed.

Lemma browser_classification_witness :
  Browser.on_socket ex_browser
    (SSDP.notification_ (with_headers Notification ex_byebye) ex_local ex_remote)
  = [withdraw_event (lit "urn:test:1") (with_headers Notification ex_byebye)
       ex_remote ex_local].
Proof.
  pose proof (browser_classification ex_browser ex_byebye ex_local ex_remote) as H.
  cbv zeta in H. destruct H as (_ & _ & _ & _ & _ & H).
  assert (Ht : getHeader (with_headers Notification ex_byebye) (lit "NT")
               = Some (lit "urn:test:1")) by (vm_compute; reflexivity).
  assert (Hin : lit "urn:test:1" ∈ Browser._searchTargets ex_browser)
    by (unfold ex_browser; simpl; apply elem_of_singleton_2; reflexivity).
  destruct (H _ Ht Hin) as (_ & Hw & _).
  apply Hw. vm_compute. reflexivity.
Defined.

(** ** The Advertiser's handling of searches *)

Lemma hasHeader_false (p : Payload) (key : list ascii) :
  hasHeader p key = false → getHeader p key = None.
Proof.
  unfold hasHeader, getHeader, Headers.has, Headers.get.
  intros H%bool_decide_eq_false. 
  destruct (_headers p !! _) eqn:E; [|done].
  destruct H. by eexists.
Qed.

(** C5. A Search whose MAN header is not the quoted ssdp:discover, or that
    has no ST header, makes the Advertiser emit nothing and send nothing:
    its handler resolves to false with no effect, and a datagram that
    decodes to such a Search is dropped before it reaches the handler. *)
Theorem search_validity_gate (a : Advertiser.t) (p : Payload)
    (local remote : AddressInfo) :
  getHeader p (lit "MAN") ≠ Some ssdp_discover ∨ hasHeader p (lit "ST") = false →
  Advertiser.handle_payload a p local remote = ([], Resolves false)
  ∧ Advertiser.on_socket a (SSDP.search_ p local remote) = []
  ∧ (∀ msg, startsWith msg (lit "M-SEARCH") = true →
       Search_decode msg remote.1 remote.2 = Some p →
       Advertiser.receive a msg local remote = []).
Proof.
  intros Hgate.
  assert (E : Advertiser.handle_payload a p local remote = ([], Resolves false)).
  { unfold Advertiser.handle_payload. destruct Hgate as [Hman | Hst].
    - destruct (getHeader p (lit "ST")); [|done].
      by rewrite bool_decide_eq_false_2.
    - by rewrite (hasHeader_false _ _ Hst). }
  split; [exact E|]. split.
  - unfold Advertiser.on_socket. by rewrite E.
  - intros msg Hpre Hdec. unfold Advertiser.receive, SSDP.on_message.
    rewrite Hpre, Hdec. destruct Hgate as [Hman | Hst].
    + by rewrite bool_decide_eq_false_2.
    + rewrite Hst. by rewrite andb_false_r.
Qed.

Lemma search_validity_gate_witness :
  Advertiser.handle_payload ex_advertiser ex_search_no_man ex_local ex_remote
  = ([], Resolves false).
Proof.
  apply (search_validity_gate ex_advertiser ex_search_no_man ex_local ex_remote).
  left. vm_compute. discriminate.
Defined.

(** ** Facts about [Headers] and [setHeader] *)

#[local] Arguments lit : simpl never.
#[local] Arguments trim : simpl never.
#[local] Arguments toUpperCase : simpl never.
#[local] Arguments toLowerCase : simpl never.
#[local] Arguments setHeader : simpl never.
#[local] Arguments getHeader : simpl never.
#[local] Arguments hasHeader : simpl never.
#[local] Arguments Headers.normalize : simpl never.
#[local] Arguments Headers.set : simpl never.
#[local] Arguments Headers.get : simpl never.
#[local] Arguments Headers.valid_value : simpl never.
#[local] Arguments Headers.valid_name : simpl never.
#[local] Arguments Advertiser.usn : simpl never.

Lemma valid_value_app (s t : list ascii) :
  Headers.valid_value (s ++ t) = Headers.valid_value s && Headers.valid_value t.
Proof. apply forallb_app. Qed.

Lemma valid_value_rev (s : list ascii) :
  Headers.valid_value (rev s) = Headers.valid_value s.
Proof.
  induction s as [|c s IH]; [done|]. simpl rev.
  rewrite valid_value_app, IH. unfold Headers.valid_value at 2. simpl.
  rewrite andb_true_r. apply andb_comm.
Qed.

Lemma valid_value_trimStart (s : list ascii) :
  Headers.valid_value s = true → Headers.valid_value (trimStart s) = true.
Proof.
  destruct (trimStart_suffix s) as [w [_ Hs]]. rewrite Hs at 1.
  rewrite valid_value_app. by intros [_ ?]%andb_prop.
Qed.

Lemma valid_value_trim (s : list ascii) :
  Headers.valid_value s = true → Headers.valid_value (trim s) = true.
Proof.
  intros H. unfold trim, trimEnd. rewrite valid_value_rev.
  apply valid_value_trimStart. rewrite valid_value_rev.
  by apply valid_value_trimStart.
Qed.

Lemma strip_start_suffix (s : list ascii) : ∃ w, s = w ++ Headers.strip_start s.
Proof.
  induction s as [|c s [w Hs]]; simpl; [by exists []|].
  destruct (Headers.is_http_ws c); [|by exists []].
  exists (c :: w). simpl. by rewrite <- Hs.
Qed.

Lemma valid_value_normalize (s : list ascii) :
  Headers.valid_value s = true → Headers.valid_value (Headers.normalize s) = true.
Proof.
  intros H. unfold Headers.normalize. rewrite valid_value_rev.
  destruct (strip_start_suffix (rev (Headers.strip_start s))) as [w Hw].
  assert (Headers.valid_value (rev (Headers.strip_start s)) = true) as H'.
  { rewrite valid_value_rev. destruct (strip_start_suffix s) as [w' Hw'].
    rewrite Hw' in H. rewrite valid_value_app in H.
    by apply andb_prop in H as [_ ?]. }
  rewrite Hw in H'. rewrite valid_value_app in H'.
  by apply andb_prop in H' as [_ ?].
Qed.

Lemma Headers_set_ok (h : gmap (list ascii) (list ascii)) (name v : list ascii) :
  Headers.valid_name name = true → Headers.valid_value v = true →
  Headers.set h name v = Some (<[toLowerCase name := Headers.normalize v]> h).
Proof.
  intros Hn Hv. unfold Headers.set.
  by rewrite Hn, (valid_value_normalize _ Hv).
Qed.

Lemma setHeader_ok (p : Payload) (key v : list ascii) :
  Headers.valid_name (toUpperCase (trim key)) = true →
  Headers.valid_value v = true →
  setHeader p key v
  = Some (with_headers p
            (<[toLowerCase (toUpperCase (trim key)) := trim v]> (_headers p))).
Proof.
  intros Hn Hv. unfold setHeader.
  rewrite Headers_set_ok by auto using valid_value_trim.
  by rewrite normalize_trim.
Qed.

Lemma valid_value_usn (id service : list ascii) :
  Headers.valid_value id = true → Headers.valid_value service = true →
  Headers.valid_value (Advertiser.usn id service) = true.
Proof.
  intros H1 H2. unfold Advertiser.usn.
  rewrite !valid_value_app, H1, H2. reflexivity.
Qed.

Lemma forEach_singleton (k v : list ascii) :
  Headers.forEach {[k := v]} = [(k, v)].
Proof. unfold Headers.forEach. by rewrite map_to_list_singleton. Qed.

Ltac valid_solver :=
  first [ reflexivity | assumption
        | apply valid_value_normalize; valid_solver
        | apply valid_value_trim; valid_solver
        | apply valid_value_usn; valid_solver ].

(** ** The Service Table as a [Map] *)




(** ** The destroyed flag *)

(** C3, as stated, fails: after [destroy], announcing a new service still
    hands a Notification to the socket and adds the service to the Service
    Table. *)
Lemma announce_after_destroy_acts :
  let a := (Advertiser.destroy ex_advertiser).1.2 in
  Advertiser.isDestroyed a = true
  ∧ ¬ ((Advertiser.announce a (lit "urn:test:2") (init_record [])).1.1 = []
       ∧ Advertiser._services
           (Advertiser.announce a (lit "urn:test:2") (init_record [])).1.2
         = Advertiser._services a).
Proof.
  split; [reflexivity|]. intros [H _]. vm_compute in H. discriminate H.
Qed.

(** C3, amended.  On a destroyed Advertiser [destroy] does nothing: no
    goodbye is sent, nothing is released again, the object is unchanged.
    [announce], [withdraw] and [announceNow] never read the flag: on a
    destroyed Advertiser they send, return and update the Service Table
    exactly as on a live one. *)
Theorem destroyed_flag_guards_destroy_only (a : Advertiser.t) :
  Advertiser.destroy (with_flag true a) = ([], with_flag true a, Some tt)
  ∧ (∀ service headers,
       Advertiser.announce (with_flag true a) service headers
       = step_with_flag true (Advertiser.announce (with_flag false a) service headers))
  ∧ (∀ service,
       Advertiser.withdraw (with_flag true a) service
       = step_with_flag true (Advertiser.withdraw (with_flag false a) service))
  ∧ Advertiser.announceNow (with_flag true a)
    = step_with_flag true (Advertiser.announceNow (with_flag false a)).
Proof.
  split; [reflexivity|]. split; [|split].
  - intros service headers. unfold Advertiser.announce.
    destruct (to_Headers headers) as [h|]; [|reflexivity].
    cbn [with_flag Advertiser._services Advertiser.uuid].
    destruct (negb _); [|reflexivity].
    destruct (Advertiser.notify _ _) as [[tr l] ok].
    destruct l as [|[k v] [|? ?]]; try reflexivity.
    destruct ok; reflexivity.
  - intros service. unfold Advertiser.withdraw.
    cbn [with_flag Advertiser._services].
    destruct (Advertiser.map_has _ _); reflexivity.
  - unfold Advertiser.announceNow.
    cbn [with_flag Advertiser._services Advertiser.uuid].
    change (Advertiser.notify_root_devices (Advertiser.mk ?u ?s true ?p))
      with (Advertiser.notify_root_devices (Advertiser.mk u s false p)).
    destruct (Advertiser.notify _ _) as [[tr l] ok]. reflexivity.
Qed.

(** ** Header names: tokens survive [trim], [toUpperCase] and lower-casing *)

Lemma all_units_complete (c : ascii) : In c all_units.
Proof.
  unfold all_units. rewrite <- (ascii_nat_embedding c).
  apply in_map, in_seq. pose proof (nat_ascii_bounded c). lia.
Qed.

Lemma by_units (P : ascii → bool) :
  forallb P all_units = true → ∀ c, P c = true.
Proof.
  intros H c. rewrite forallb_forall in H. apply H, all_units_complete.
Qed.

Lemma token_unit_not_ws (c : ascii) :
  Headers.is_token_unit c = true → is_ws c = false.
Proof.
  intros H.
  pose proof (by_units (fun c => implb (Headers.is_token_unit c) (negb (is_ws c)))
                eq_refl c) as E.
  simpl in E. rewrite H in E. simpl in E. by apply negb_true_iff.
Qed.

Lemma token_unit_upper (c : ascii) :
  Headers.is_token_unit c = true →
  ∃ c', upper_unit c = [c'] ∧ Headers.is_token_unit c' = true
        ∧ lower_unit c' = lower_unit c.
Proof.
  intros H.
  pose proof (by_units
    (fun c => implb (Headers.is_token_unit c)
                match upper_unit c with
                | [c'] => Headers.is_token_unit c'
                          && bool_decide (lower_unit c' = lower_unit c)
                | _ => false
                end) eq_refl c) as E.
  simpl in E. rewrite H in E. simpl in E.
  destruct (upper_unit c) as [|c' [|? ?]]; try discriminate E.
  apply andb_prop in E as [E1 E2%bool_decide_eq_true]. by exists c'.
Qed.

Lemma tokens_upper (k : list ascii) :
  forallb Headers.is_token_unit k = true →
  forallb Headers.is_token_unit (toUpperCase k) = true
  ∧ toLowerCase (toUpperCase k) = toLowerCase k
  ∧ length (toUpperCase k) = length k.
Proof.
  induction k as [|c k IH]; [done|]. simpl forallb at 1.
  intros [Hc Hk]%andb_prop. destruct (IH Hk) as (IH1 & IH2 & IH3).
  destruct (token_unit_upper c Hc) as (c' & E & Ht & Hl).
  assert (EU : toUpperCase (c :: k) = c' :: toUpperCase k).
  { unfold toUpperCase. simpl. by rewrite E. }
  rewrite EU. split; [|split].
  - simpl. by rewrite Ht, IH1.
  - unfold toLowerCase in *. simpl. by rewrite Hl, IH2.
  - simpl. by rewrite IH3.
Qed.

Lemma forallb_rev {A} (f : A → bool) (l : list A) :
  forallb f (rev l) = forallb f l.
Proof.
  induction l as [|x l IH]; [done|]. simpl.
  rewrite forallb_app, IH. simpl. rewrite andb_true_r. apply andb_comm.
Qed.

Lemma tokens_trimmed (k : list ascii) :
  forallb Headers.is_token_unit k = true → trimmed k.
Proof.
  intros H. split.
  - destruct k as [|c k]; [done|]. simpl in *.
    apply andb_prop in H as [Hc _]. by apply token_unit_not_ws.
  - rewrite <- forallb_rev in H. destruct (rev k) as [|c k']; [done|].
    simpl in *. apply andb_prop in H as [Hc _]. by apply token_unit_not_ws.
Qed.

(** A stored header name comes back unchanged from the path
    [trim], [toUpperCase], [Headers.set]. *)
Lemma name_path (k : list ascii) :
  Headers.valid_name k = true → toLowerCase k = k →
  Headers.valid_name (toUpperCase (trim k)) = true
  ∧ toLowerCase (toUpperCase (trim k)) = k.
Proof.
  unfold Headers.valid_name. intros [Hne Htok]%andb_prop Hlow.
  rewrite (trimmed_trim k) by by apply tokens_trimmed.
  destruct (tokens_upper k Htok) as (H1 & H2 & H3).
  split; [|by rewrite H2].
  rewrite H1, andb_true_r. apply negb_true_iff, bool_decide_eq_false.
  apply negb_true_iff, bool_decide_eq_false in Hne.
  intros E. apply Hne. apply nil_length_inv. by rewrite <- H3, E.
Qed.

(** ** Copying a [Headers] object into a message *)

Lemma forEach_elem (h : gmap (list ascii) (list ascii)) (k v : list ascii) :
  (k, v) ∈ Headers.forEach h ↔ h !! k = Some v.
Proof.
  unfold Headers.forEach. rewrite merge_sort_Permutation.
  apply elem_of_map_to_list.
Qed.

Lemma forEach_NoDup (h : gmap (list ascii) (list ascii)) :
  NoDup (Headers.forEach h).*1.
Proof.
  unfold Headers.forEach. rewrite merge_sort_Permutation.
  apply NoDup_fst_map_to_list.
Qed.

Lemma copy_fold (l : list (list ascii * list ascii)) (p : Payload) :
  NoDup l.*1 →
  (∀ k v, (k, v) ∈ l →
     Headers.valid_name k = true ∧ toLowerCase k = k
     ∧ Headers.valid_value v = true) →
  ∃ m, foldl (fun acc kv => acc ≫= fun m => setHeader m kv.1 kv.2) (Some p) l
       = Some (with_headers p m)
     ∧ (∀ k v, (k, v) ∈ l → m !! k = Some (trim v))
     ∧ (∀ k, k ∉ l.*1 → m !! k = _headers p !! k).
Proof.
  revert p. induction l as [|[k0 v0] l IH]; intros p Hnd Hok.
  - exists (_headers p). split; [by destruct p|]. split; [|done].
    intros k v H. by apply elem_of_nil in H.
  - apply NoDup_cons in Hnd as [Hk0 Hnd]. simpl in Hk0.
    destruct (Hok k0 v0) as (Hn & Hl & Hv); [left|].
    destruct (name_path k0 Hn Hl) as [Hn' Hl'].
    simpl foldl. rewrite setHeader_ok by done. rewrite Hl'.
    destruct (IH (with_headers p (<[k0:=trim v0]> (_headers p))) Hnd)
      as (m & Hm & Hin & Hout).
    { intros k v H. apply Hok. by right. }
    exists m. split; [exact Hm|]. split.
    + intros k v [E|H]%elem_of_cons.
      * injection E as -> ->. rewrite (Hout k0 Hk0). simpl.
        by rewrite lookup_insert_eq.
      * by apply Hin.
    + intros k Hk. simpl in Hk. apply not_elem_of_cons in Hk as [Hne Hk].
      rewrite (Hout k Hk). simpl. by rewrite lookup_insert_ne.
Qed.


(** ** Replies *)







(** ** Tactics for header lookups *)

Ltac lookup_solver :=
  repeat (rewrite lookup_insert_ne by discriminate); by rewrite lookup_insert_eq.

Ltac norm_key K :=
  let t := constr:(toLowerCase (toUpperCase (trim (lit K)))) in
  let v := eval vm_compute in t in
  try change t with v;
  let t' := constr:(toLowerCase (lit K)) in
  let v' := eval vm_compute in t' in
  try change t' with v'.

(** ** Encoding *)

Lemma join_cons (sep p q : list ascii) (rest : list (list ascii)) :
  join sep (p :: q :: rest) = p ++ sep ++ join sep (q :: rest).
Proof. reflexivity. Qed.

(** The joined text written out: every line, the request line included,
    is followed by the separator, and one more separator ends the text. *)
Lemma join_lines (sep first : list ascii) (lines : list (list ascii)) :
  join sep ([first] ++ lines ++ [sep])
  = first ++ sep ++ flat_map (fun l => l ++ sep) lines ++ sep.
Proof.
  revert first. induction lines as [|l lines IH]; intros first; [done|].
  simpl app in *. destruct lines as [|l' lines].
  - simpl. by rewrite <- !app_assoc.
  - rewrite join_cons. rewrite (IH l). simpl. by rewrite <- !app_assoc.
Qed.

Lemma unit_compare_total (a b : list ascii) :
  unit_compare a b ≤ 0 ∨ unit_compare b a ≤ 0.
Proof.
  revert b. induction a as [|x a IH]; intros [|y b]; simpl; try lia.
  destruct (code x <? code y)%N eqn:E1; [lia|].
  destruct (code y <? code x)%N eqn:E2; [lia|]. apply IH.
Qed.

Lemma setHeader_commute (p : Payload) (k1 v1 k2 v2 : list ascii) :
  toLowerCase (toUpperCase (trim k1)) ≠ toLowerCase (toUpperCase (trim k2)) →
  (setHeader p k1 v1 ≫= fun q => setHeader q k2 v2)
  = (setHeader p k2 v2 ≫= fun q => setHeader q k1 v1).
Proof.
  intros Hne. unfold setHeader, Headers.set.
  destruct (Headers.valid_name (toUpperCase (trim k1))
            && Headers.valid_value (Headers.normalize (trim v1)));
    destruct (Headers.valid_name (toUpperCase (trim k2))
              && Headers.valid_value (Headers.normalize (trim v2)));
    simpl; try reflexivity.
  unfold with_headers. simpl. by rewrite insert_insert_ne.
Qed.

(** C9, as stated, fails: the lines follow the host's collation, which is
    not lexicographic order.  Under the root collation the headers A_B and
    A0B go out in this order, though 0 comes before _ among the code
    units. *)
Lemma collation_is_not_lexicographic :
  toString root_compare
    (with_headers Notification {[lit "a0b" := lit "1"; lit "a_b" := lit "2"]})
  = lit "NOTIFY * HTTP/1.1" ++ [CR; LF]
    ++ lit "A_B: 2" ++ [CR; LF]
    ++ lit "A0B: 1" ++ [CR; LF]
    ++ [CR; LF]
  ∧ str_leb (lit "A0B") (lit "A_B") = true
  ∧ str_leb (lit "A_B") (lit "A0B") = false.
Proof. repeat split; vm_compute; reflexivity. Qed.

(** C9, amended.  The encoded text is the request line of the method
    ([M-SEARCH * HTTP/1.1], [NOTIFY * HTTP/1.1] or [HTTP/1.1 200 OK]),
    then one line [KEY: value] per header with the key in upper case,
    then a blank line, all joined with CRLF.  The header lines are in the
    order of the host's [localeCompare] on the keys, whatever that
    collation is: each line precedes the next in it, and every later line
    when it is transitive.  The order in which two different headers were
    set does not matter. *)
Theorem toString_spec (localeCompare : list ascii → list ascii → Z)
    (p : Payload) :
  (∀ a b, localeCompare a b ≤ 0 ∨ localeCompare b a ≤ 0) →
  (request_line M_SEARCH = lit "M-SEARCH * HTTP/1.1"
   ∧ request_line NOTIFY = lit "NOTIFY * HTTP/1.1"
   ∧ request_line REPLY = lit "HTTP/1.1 200 OK")
  ∧ (∃ hs,
       toString localeCompare p
       = join [CR; LF] ([request_line (method p)]
                        ++ map (fun kv => toUpperCase kv.1 ++ lit ": " ++ kv.2) hs
                        ++ [[CR; LF]])
     ∧ toString localeCompare p
       = request_line (method p) ++ [CR; LF]
         ++ flat_map (fun kv => toUpperCase kv.1 ++ lit ": " ++ kv.2 ++ [CR; LF]) hs
         ++ [CR; LF]
     ∧ hs ≡ₚ map_to_list (_headers p)
     ∧ Sorted (fun a b => localeCompare a.1 b.1 ≤ 0) hs
     ∧ ((∀ a b c, localeCompare a b ≤ 0 → localeCompare b c ≤ 0 →
                  localeCompare a c ≤ 0) →
        StronglySorted (fun a b => localeCompare a.1 b.1 ≤ 0) hs))
  ∧ (∀ k1 v1 k2 v2 p12 p21,
       toLowerCase (toUpperCase (trim k1)) ≠ toLowerCase (toUpperCase (trim k2)) →
       setHeader p k1 v1 ≫= (fun q => setHeader q k2 v2) = Some p12 →
       setHeader p k2 v2 ≫= (fun q => setHeader q k1 v1) = Some p21 →
       toString localeCompare p12 = toString localeCompare p21).
Proof.
  intros Htotal. split; [by vm_compute|]. split.
  - assert (Hsorted : Sorted (fun a b => localeCompare a.1 b.1 ≤ 0)
                        (sorted_headers localeCompare p)).
    { unfold sorted_headers.
      apply (@Sorted_merge_sort _ (by_key localeCompare) _).
      intros a b. apply Htotal. }
    exists (sorted_headers localeCompare p).
    split; [reflexivity|]. split; [|split; [|split]].
    + unfold toString. rewrite join_lines. f_equal. f_equal.
      rewrite flat_map_concat_map, map_map. rewrite <- flat_map_concat_map.
      f_equal. apply flat_map_ext. intros [k v]. unfold header_line. simpl.
      by rewrite <- !app_assoc.
    + unfold sorted_headers, Headers.forEach.
      by rewrite !merge_sort_Permutation.
    + exact Hsorted.
    + intros Htrans. apply Sorted_StronglySorted; [|exact Hsorted].
      intros a b c. apply Htrans.
  - intros k1 v1 k2 v2 p12 p21 Hne H12 H21.
    rewrite (setHeader_commute p k1 v1 k2 v2 Hne) in H12. congruence.
Qed.

Lemma toString_spec_witness :
  ∃ hs, toString unit_compare (with_headers Notification ex_byebye)
        = join [CR; LF] ([lit "NOTIFY * HTTP/1.1"]
                         ++ map (fun kv => toUpperCase kv.1 ++ lit ": " ++ kv.2) hs
                         ++ [[CR; LF]])
      ∧ hs ≡ₚ map_to_list ex_byebye.
Proof.
  destruct (toString_spec unit_compare (with_headers Notification ex_byebye)
              unit_compare_total) as (_ & (hs & H & _ & Hp & _) & _).
  exists hs. split; [exact H | exact Hp].
Defined.

(** ** Splitting and joining *)

Lemma split_nonempty (sep : ascii) (s : list ascii) : split sep s ≠ [].
Proof.
  destruct s as [|c s]; simpl; [done|].
  destruct (decide (c = sep)); [done|]. by destruct (split sep s).
Qed.

(** A prefix without the separator stays in front of the first piece. *)
Lemma split_prefix (sep : ascii) (w s : list ascii) :
  sep ∉ w →
  ∃ p ps, split sep s = p :: ps ∧ split sep (w ++ s) = (w ++ p) :: ps.
Proof.
  induction w as [|c w IH]; intros Hw.
  - destruct (split sep s) as [|p ps] eqn:E; [by apply split_nonempty in E|].
    by exists p, ps.
  - apply not_elem_of_cons in Hw as [Hc Hw].
    destruct (IH Hw) as (p & ps & E1 & E2).
    exists p, ps. split; [done|]. simpl.
    rewrite decide_False by done. by rewrite E2.
Qed.

Lemma split_no_sep (sep : ascii) (w : list ascii) :
  sep ∉ w → split sep w = [w].
Proof.
  intros Hw. destruct (split_prefix sep w [] Hw) as (p & ps & E1 & E2).
  simpl in E1. injection E1 as <- <-. by rewrite app_nil_r in E2.
Qed.

Lemma split_at_sep (sep : ascii) (a b : list ascii) :
  sep ∉ a → split sep (a ++ sep :: b) = a :: split sep b.
Proof.
  intros Ha. destruct (split_prefix sep a (sep :: b) Ha) as (p & ps & E1 & E2).
  simpl in E1. rewrite decide_True in E1 by done. injection E1 as <- <-.
  by rewrite app_nil_r in E2.
Qed.

Lemma join_split (sep : ascii) (s : list ascii) :
  join [sep] (split sep s) = s.
Proof.
  induction s as [|c s IH]; [done|]. simpl.
  destruct (split sep s) as [|p ps] eqn:E; [by apply split_nonempty in E|].
  destruct (decide (c = sep)) as [->|Hne].
  - rewrite join_cons, IH. reflexivity.
  - destruct ps as [|q ps].
    + simpl in *. by rewrite IH.
    + rewrite join_cons. rewrite join_cons in IH. rewrite <- IH. reflexivity.
Qed.

Lemma ws_no_colon (w : list ascii) : forallb is_ws w = true → colon ∉ w.
Proof.
  induction w as [|c w IH]; simpl; [intros _; apply not_elem_of_nil|].
  intros [Hc Hw]%andb_prop. apply not_elem_of_cons. split; [|by apply IH].
  intros <-. vm_compute in Hc. discriminate.
Qed.

Lemma trim_ws_l (w s : list ascii) :
  forallb is_ws w = true → trim (w ++ s) = trim s.
Proof. intros H. unfold trim. by rewrite trimStart_app_ws. Qed.

Lemma map_trim_id (ps : list (list ascii)) :
  Forall trimmed ps → map trim ps = ps.
Proof.
  induction 1 as [|p ps Hp _ IH]; [done|]. simpl.
  by rewrite (trimmed_trim p Hp), IH.
Qed.

(** On a value with nothing to trim at its end, trimming every piece
    between colons comes to trimming the value, as long as the pieces of
    the trimmed value have no white space of their own to lose. *)
Lemma tighten_value (v : list ascii) :
  clean (rev v) → Forall trimmed (split colon (trim v)) →
  join [colon] (map trim (split colon v)) = trim v.
Proof.
  intros Hend Hpieces.
  destruct (trimStart_suffix v) as (w & Hw & Hv).
  assert (Hx : trim v = trimStart v).
  { assert (T : trimmed (trimStart v)).
    { split; [apply trimStart_head|].
      rewrite Hv in Hend. rewrite rev_app_distr in Hend.
      destruct (rev (trimStart v)) as [|c r]; [done|]. exact Hend. }
    pose proof (trimmed_trim _ T) as H. unfold trim in *.
    by rewrite trimStart_idem in H. }
  rewrite Hx in *.
  destruct (split_prefix colon w (trimStart v) (ws_no_colon w Hw))
    as (p & ps & E1 & E2).
  rewrite Hv at 1. rewrite E2. rewrite E1 in Hpieces.
  simpl map. rewrite (trim_ws_l w p Hw).
  change (trim p :: map trim ps) with (map trim (p :: ps)).
  rewrite (map_trim_id _ Hpieces). rewrite <- E1. apply join_split.
Qed.

(** ** Decoding one line *)

Lemma decode_line_no_colon (h : gmap (list ascii) (list ascii)) (line : list ascii) :
  colon ∉ line → decode_line h line = Some h.
Proof.
  intros H. unfold decode_line. rewrite split_no_sep by done. simpl map.
  cbv iota. rewrite (bool_decide_eq_false_2 (0 < length [])%nat) by (simpl; lia).
  by rewrite andb_false_r.
Qed.

Lemma decode_line_colon (h : gmap (list ascii) (list ascii)) (k v : list ascii) :
  colon ∉ k →
  decode_line h (k ++ colon :: v)
  = if bool_decide (trim k = []) then Some h
    else Headers.set h (toUpperCase (trim k))
           (trim (join [colon] (map trim (split colon v)))).
Proof.
  intros Hk. unfold decode_line. rewrite split_at_sep by done. simpl map.
  destruct (split colon v) as [|p ps] eqn:E; [by apply split_nonempty in E|].
  assert (bool_decide (0 < length (map trim (p :: ps)))%nat = true) as ->.
  { apply bool_decide_eq_true. simpl. lia. }
  rewrite andb_true_r. by destruct (bool_decide (trim k = [])).
Qed.

Lemma clean_rev_tail (x : list ascii) (c : ascii) (v : list ascii) :
  clean (rev (x ++ c :: v)) → clean (rev v).
Proof.
  rewrite rev_app_distr. simpl. rewrite <- app_assoc.
  destruct (rev v) as [|d r]; [done|]. by simpl.
Qed.

Lemma Headers_set_again (h h' : gmap (list ascii) (list ascii))
    (name v v' : list ascii) :
  Headers.set h name v = Some h' →
  Headers.get h' name = Some (Headers.normalize v)
  ∧ Headers.set h' name v' = Headers.set h name v'.
Proof.
  unfold Headers.set, Headers.get.
  destruct (Headers.valid_name name && Headers.valid_value (Headers.normalize v));
    [|done].
  intros [= <-]. split; [by rewrite lookup_insert_eq|].
  destruct (_ && _); [|done]. by rewrite insert_insert_eq.
Qed.

(** C4, as stated, fails: white space next to a colon inside the value is
    lost, so the value is not the text right of the first colon with only
    its ends trimmed; and a line with nothing left of its first colon is
    not written at all. *)
Lemma decode_trims_inside_value :
  _decode (lit "NOTIFY * HTTP/1.1" ++ [CR; LF] ++ lit "X: a : b" ++ [CR; LF; CR; LF])
  = Some {[lit "x" := lit "a:b"]}
  ∧ trim (lit " a : b") = lit "a : b"
  ∧ lit "a:b" ≠ lit "a : b"
  ∧ _decode (lit "NOTIFY * HTTP/1.1" ++ [CR; LF] ++ lit ": v" ++ [CR; LF; CR; LF])
    = Some ∅.
Proof. repeat split; vm_compute; (reflexivity || discriminate). Qed.

(** C4, amended.  Decoding discards the first line -- all of the text when
    it holds no newline, which then decodes to the empty header set --
    splits the rest on newline, trims every line and drops the blank
    ones; the remaining lines are written, in order, into a fresh header
    set.  A line without
    a colon, or with nothing but white space left of its first colon,
    writes nothing.  Any other line is split at its first colon: the text
    on the left, trimmed and upper-cased, is the key; the text on the
    right, trimmed, is the value, provided no piece of it between two
    colons starts or ends with white space.  A later write under the same
    key replaces the earlier one.  (The write itself is [Headers.set],
    which throws on a key that is not a token.) *)
Theorem decode_spec :
  (∀ payload, LF ∉ payload → _decode payload = Some ∅)
  ∧ (∀ first rest, LF ∉ first →
     payload_lines (first ++ LF :: rest)
     = filter (fun line => (0 < length line)%nat) (map trim (split LF rest))
     ∧ _decode (first ++ LF :: rest)
       = foldl (fun acc line => acc ≫= fun h => decode_line h line) (Some ∅)
           (filter (fun line => (0 < length line)%nat)
                   (map trim (split LF rest))))
  ∧ (∀ payload,
       _decode payload
       = foldl (fun acc line => acc ≫= fun h => decode_line h line)
               (Some ∅) (payload_lines payload))
  ∧ (∀ h line, colon ∉ line → decode_line h line = Some h)
  ∧ (∀ h k v, colon ∉ k → trim k = [] → decode_line h (k ++ colon :: v) = Some h)
  ∧ (∀ h k v, colon ∉ k → trim k ≠ [] →
       trimmed (k ++ colon :: v) →
       Forall trimmed (split colon (trim v)) →
       decode_line h (k ++ colon :: v)
       = Headers.set h (toUpperCase (trim k)) (trim v))
  ∧ (∀ h h' name v v', Headers.set h name v = Some h' →
       Headers.get h' name = Some (Headers.normalize v)
       ∧ Headers.set h' name v' = Headers.set h name v').
Proof.
  split; [|split; [|split; [|split; [|split; [|split]]]]].
  - intros payload H. unfold _decode, payload_lines. by rewrite split_no_sep.
  - intros first rest H. unfold _decode, payload_lines.
    by rewrite split_at_sep.
  - reflexivity.
  - apply decode_line_no_colon.
  - intros h k v Hk Hempty. rewrite decode_line_colon by done.
    by rewrite bool_decide_eq_true_2.
  - intros h k v Hk Hkey [_ Hend] Hpieces. rewrite decode_line_colon by done.
    rewrite bool_decide_eq_false_2 by done.
    rewrite tighten_value; [by rewrite trim_idem| |done].
    by apply clean_rev_tail in Hend.
  - apply Headers_set_again.
Qed.

Lemma decode_spec_witness :
  decode_line ∅ (lit "ST: urn:test:1")
  = Headers.set ∅ (lit "ST") (lit "urn:test:1")
  ∧ _decode (lit "NOTIFY * HTTP/1.1 ST: urn:test:1") = Some ∅.
Proof.
  destruct decode_spec as (H0 & _ & _ & _ & _ & H & _). split.
  - apply (H ∅ (lit "ST") (lit " urn:test:1")).
    + intros Hc. unfold lit in Hc. simpl in Hc.
      repeat (apply elem_of_cons in Hc as [Hc|Hc]; [discriminate Hc|]).
      by apply elem_of_nil in Hc.
    + discriminate.
    + split; reflexivity.
    + vm_compute. repeat constructor.
  - apply H0. intros Hc. unfold lit in Hc. simpl in Hc.
    repeat (apply elem_of_cons in Hc as [Hc|Hc]; [discriminate Hc|]).
    by apply elem_of_nil in Hc.
Defined.

(** ** Encoding, then decoding *)

Lemma trimStart_stop (x : list ascii) (c : ascii) (y : list ascii) :
  is_ws c = false → trimStart (x ++ c :: y) = trimStart x ++ c :: y.
Proof.
  intros Hc. induction x as [|d x IH]; simpl; [by rewrite Hc|].
  by destruct (is_ws d).
Qed.

Lemma trimEnd_after (a : list ascii) (c : ascii) (u : list ascii) :
  is_ws c = false → trimEnd (a ++ c :: u) = a ++ c :: trimEnd u.
Proof.
  intros Hc. unfold trimEnd.
  assert (E : rev (a ++ c :: u) = rev u ++ c :: rev a).
  { rewrite rev_app_distr. simpl. by rewrite <- app_assoc. }
  rewrite E, trimStart_stop by done.
  rewrite rev_app_distr. simpl. rewrite rev_involutive.
  by rewrite <- app_assoc.
Qed.

Lemma pieces_clean_start (v : list ascii) :
  Forall clean (split colon v) → clean v.
Proof.
  destruct v as [|c v]; [done|]. simpl.
  destruct (decide (c = colon)) as [->|Hne]; [done|].
  destruct (split colon v); intros H; by apply Forall_cons in H as [H _].
Qed.

Lemma pieces_clean_end (v : list ascii) :
  Forall (fun p => clean (rev p)) (split colon v) → clean (rev v).
Proof.
  induction v as [|c v IH]; [done|]. simpl.
  intros H.
  assert (Hc : is_ws c = false ∨ v ≠ []).
  { destruct (decide (c = colon)) as [->|Hne]; [by left|].
    destruct v as [|d v]; [|by right]. left. simpl in H.
    by apply Forall_cons in H as [H _]. }
  assert (Hv : clean (rev v)).
  { apply IH. destruct (decide (c = colon)) as [->|Hne].
    - by apply Forall_cons in H as [_ H].
    - destruct (split colon v) as [|p ps]; [constructor|].
      apply Forall_cons in H as [Hp H]. constructor; [|done].
      simpl in Hp. destruct (rev p) as [|d r]; [done|]. exact Hp. }
  destruct (rev v) as [|d r] eqn:E.
  - destruct Hc as [Hc|Hc]; [by simpl|].
    destruct Hc. apply (f_equal (@rev ascii)) in E.
    by rewrite rev_involutive in E.
  - exact Hv.
Qed.

Lemma pieces_trimmed (v : list ascii) :
  Forall trimmed (split colon v) → trimmed v.
Proof.
  intros H. split.
  - apply pieces_clean_start. eapply Forall_impl; [exact H|]. by intros p [? ?].
  - apply pieces_clean_end. eapply Forall_impl; [exact H|]. by intros p [? ?].
Qed.

(** What is left of the value part of an encoded line once the line has
    been trimmed. *)
Lemma value_part (v : list ascii) :
  trimmed v →
  clean (rev (trimEnd (space :: v ++ [CR])))
  ∧ trim (trimEnd (space :: v ++ [CR])) = v.
Proof.
  intros [H1 H2]. split.
  { unfold trimEnd. rewrite rev_involutive. apply trimStart_head. }
  destruct (rev v) as [|d r] eqn:E; simpl in H2.
  - apply (f_equal (@rev ascii)) in E. rewrite rev_involutive in E.
    subst v. reflexivity.
  - assert (Hx : trimEnd (space :: v ++ [CR]) = space :: v).
    { assert (Ev : v = rev r ++ [d]).
      { rewrite <- (rev_involutive v), E. reflexivity. }
      rewrite Ev.
      replace (space :: (rev r ++ [d]) ++ [CR])
        with ((space :: rev r) ++ d :: [CR])
        by (simpl; by rewrite <- app_assoc).
      rewrite trimEnd_after by exact H2. reflexivity. }
    rewrite Hx. change (space :: v) with ([space] ++ v).
    rewrite (trim_ws_l [space] v) by reflexivity.
    apply trimmed_trim. split; [exact H1|]. rewrite E. exact H2.
Qed.

Ltac not_in_literal :=
  let H := fresh "H" in
  intros H; vm_compute in H;
  repeat (apply elem_of_cons in H as [H|H]; [discriminate H|]);
  by apply elem_of_nil in H.

Lemma forallb_not_elem (f : ascii → bool) (c : ascii) (l : list ascii) :
  f c = false → forallb f l = true → c ∉ l.
Proof.
  intros Hc Hl Hin. apply list_elem_of_In in Hin.
  rewrite forallb_forall in Hl. specialize (Hl c Hin). congruence.
Qed.

Lemma request_line_no_LF (m : Method) : LF ∉ request_line m ++ [CR].
Proof. destruct m; not_in_literal. Qed.

Lemma toString_flat (localeCompare : list ascii → list ascii → Z) (p : Payload) :
  toString localeCompare p
  = (request_line (method p) ++ [CR]) ++ LF
    :: flat_map (fun kv => header_line kv ++ [CR; LF]) (sorted_headers localeCompare p)
    ++ [CR; LF].
Proof.
  unfold toString. rewrite join_lines.
  rewrite <- (app_assoc (request_line (method p)) [CR]).
  change ([CR] ++ LF :: ?x) with ([CR; LF] ++ x).
  do 3 f_equal.
  rewrite flat_map_concat_map, map_map. by rewrite <- flat_map_concat_map.
Qed.

Lemma split_lines (lines : list (list ascii)) :
  (∀ l, l ∈ lines → LF ∉ l) →
  split LF (flat_map (fun l => l ++ [CR; LF]) lines ++ [CR; LF])
  = map (fun l => l ++ [CR]) lines ++ [[CR]; []].
Proof.
  induction lines as [|l lines IH]; intros H; [reflexivity|].
  simpl flat_map.
  replace (((l ++ [CR; LF]) ++ flat_map (fun l0 => l0 ++ [CR; LF]) lines) ++ [CR; LF])
    with ((l ++ [CR]) ++ LF :: (flat_map (fun l0 => l0 ++ [CR; LF]) lines ++ [CR; LF]))
    by (rewrite <- !app_assoc; reflexivity).
  rewrite split_at_sep.
  - simpl map. simpl app. f_equal. apply IH.
    intros l' Hl'. apply H. by right.
  - intros [Hin|Hin]%elem_of_app.
    + revert Hin. apply H. left.
    + revert Hin. not_in_literal.
Qed.

(** One encoded header line, trimmed as the decoder sees it, writes its
    header back. *)
Lemma line_round_trip (h : gmap (list ascii) (list ascii)) (k v : list ascii) :
  Headers.valid_name k = true → toLowerCase k = k →
  Headers.valid_value v = true → Headers.normalize v = v →
  Forall trimmed (split colon v) →
  (0 < length (trim (header_line (k, v) ++ [CR])))%nat
  ∧ decode_line h (trim (header_line (k, v) ++ [CR])) = Some (<[k := v]> h)
  ∧ LF ∉ header_line (k, v).
Proof.
  intros Hname Hlow Hval Hnorm Hpieces.
  pose proof Hname as Hname'. unfold Headers.valid_name in Hname'.
  apply andb_prop in Hname' as [Hne Htok].
  apply negb_true_iff, bool_decide_eq_false in Hne.
  destruct (tokens_upper k Htok) as (HK1 & HK2 & HK3).
  set (K := toUpperCase k) in *.
  assert (HKne : K ≠ []).
  { intros E. apply Hne, nil_length_inv. by rewrite <- HK3, E. }
  pose proof (tokens_trimmed K HK1) as HKt.
  pose proof (pieces_trimmed v Hpieces) as Hvt.
  destruct (value_part v Hvt) as [Hu1 Hu2].
  set (u := trimEnd (space :: v ++ [CR])) in *.
  assert (Hline : trim (header_line (k, v) ++ [CR]) = K ++ colon :: u).
  { unfold header_line. simpl fst. simpl snd. fold K.
    change (lit ": ") with [colon; space].
    replace ((K ++ [colon; space] ++ v) ++ [CR])
      with (K ++ colon :: (space :: v ++ [CR]))
      by (by rewrite <- !app_assoc).
    unfold trim. rewrite clean_trimStart.
    - by rewrite trimEnd_after.
    - destruct HKt as [HKs _]. destruct K; [done|exact HKs]. }
  rewrite Hline. split; [|split].
  - rewrite length_app. destruct K; [done|simpl; lia].
  - assert (HKc : colon ∉ K) by (by apply (forallb_not_elem Headers.is_token_unit)).
    rewrite decode_line_colon by exact HKc.
    rewrite (trimmed_trim K HKt). rewrite bool_decide_eq_false_2 by done.
    rewrite tighten_value; [|exact Hu1|by rewrite Hu2].
    rewrite trim_idem, Hu2.
    destruct (tokens_upper K HK1) as (HU1 & HU2 & HU3).
    rewrite Headers_set_ok.
    + by rewrite HU2, HK2, Hlow, Hnorm.
    + unfold Headers.valid_name. rewrite HU1, andb_true_r.
      apply negb_true_iff, bool_decide_eq_false.
      intros E. apply HKne, nil_length_inv. by rewrite <- HU3, E.
    + exact Hval.
  - unfold header_line. simpl fst. simpl snd. fold K.
    intros [Hin|[Hin|Hin]%elem_of_app]%elem_of_app.
    + revert Hin. by apply (forallb_not_elem Headers.is_token_unit).
    + revert Hin. not_in_literal.
    + revert Hin. by apply (forallb_not_elem (fun c =>
        negb (bool_decide (code c ∈ [0; 10; 13]%N)))).
Qed.

Lemma foldl_insert_lookup (l : list (list ascii * list ascii))
    (m0 : gmap (list ascii) (list ascii)) :
  NoDup l.*1 →
  (∀ k v, (k, v) ∈ l → foldl (fun m kv => <[kv.1 := kv.2]> m) m0 l !! k = Some v)
  ∧ (∀ k, k ∉ l.*1 → foldl (fun m kv => <[kv.1 := kv.2]> m) m0 l !! k = m0 !! k).
Proof.
  revert m0. induction l as [|[k0 v0] l IH]; intros m0 Hnd.
  - split; [|done]. intros k v H. by apply elem_of_nil in H.
  - apply NoDup_cons in Hnd as [Hk0 Hnd]. simpl in Hk0.
    destruct (IH (<[k0 := v0]> m0) Hnd) as [Hin Hout]. simpl foldl. split.
    + intros k v [E|H]%elem_of_cons.
      * injection E as -> ->. rewrite (Hout k0 Hk0). by rewrite lookup_insert_eq.
      * by apply Hin.
    + intros k Hk. simpl in Hk. apply not_elem_of_cons in Hk as [Hne Hk].
      rewrite (Hout k Hk). by rewrite lookup_insert_ne.
Qed.

Lemma decode_fold (hs : list (list ascii * list ascii))
    (h0 : gmap (list ascii) (list ascii)) :
  (∀ k v, (k, v) ∈ hs →
     Headers.valid_name k = true ∧ toLowerCase k = k
     ∧ Headers.valid_value v = true ∧ Headers.normalize v = v
     ∧ colon_tight v) →
  foldl (fun acc line => acc ≫= fun h => decode_line h line) (Some h0)
    (filter (fun line => (0 < length line)%nat)
       (map trim (map (fun l => l ++ [CR]) (map header_line hs) ++ [[CR]; []])))
  = Some (foldl (fun m kv => <[kv.1 := kv.2]> m) h0 hs).
Proof.
  revert h0. induction hs as [|[k v] hs IH]; intros h0 Hok; [reflexivity|].
  destruct (Hok k v) as (H1 & H2 & H3 & H4 & H5); [left|].
  destruct (line_round_trip h0 k v H1 H2 H3 H4 H5) as (Hlen & Hdec & _).
  simpl map. simpl app. rewrite filter_cons_True by exact Hlen.
  simpl foldl. rewrite Hdec. apply IH.
  intros k' v' H. apply Hok. by right.
Qed.

Lemma decode_toString (localeCompare : list ascii → list ascii → Z) (p : Payload) :
  Headers.wf (_headers p) →
  (∀ k v, _headers p !! k = Some v → colon_tight v) →
  _decode (toString localeCompare p) = Some (_headers p).
Proof.
  intros Hwf Htight.
  assert (Hperm : sorted_headers localeCompare p ≡ₚ map_to_list (_headers p)).
  { unfold sorted_headers, Headers.forEach. by rewrite !merge_sort_Permutation. }
  assert (Helem : ∀ k v, (k, v) ∈ sorted_headers localeCompare p
                         ↔ _headers p !! k = Some v).
  { intros k v. rewrite Hperm. apply elem_of_map_to_list. }
  assert (Hnd : NoDup (sorted_headers localeCompare p).*1).
  { rewrite Hperm. apply NoDup_fst_map_to_list. }
  unfold _decode, payload_lines. rewrite toString_flat.
  rewrite split_at_sep by apply request_line_no_LF.
  simpl drop.
  rewrite (flat_map_concat_map _ (sorted_headers localeCompare p)).
  rewrite <- (map_map header_line (fun l => l ++ [CR; LF])).
  rewrite <- flat_map_concat_map.
  rewrite split_lines.
  - rewrite drop_0. rewrite decode_fold.
    + f_equal. apply map_eq. intros k.
      destruct (foldl_insert_lookup (sorted_headers localeCompare p) ∅ Hnd)
        as [Hin Hout].
      destruct (_headers p !! k) as [v|] eqn:E.
      * apply Hin. by apply Helem.
      * rewrite Hout; [apply lookup_empty|].
        intros ((k' & v') & -> & H%Helem)%list_elem_of_fmap.
        simpl in E. congruence.
    + intros k v H%Helem. destruct (Hwf k v H) as (?&?&?&?).
      repeat split; try done. by apply (Htight k).
  - intros l ((k & v) & -> & H%Helem)%list_elem_of_fmap.
    destruct (Hwf k v H) as (?&?&?&?).
    destruct (line_round_trip ∅ k v) as (_ & _ & Hlf); try done.
    by apply (Htight k).
Qed.

(** ** The header round trip *)

(** C1, as stated, fails: a SERVER value with blanks around a colon comes
    back from encode-then-decode without them. *)
Lemma round_trip_loses_blanks :
  Headers.wf (_headers ex_loose)
  ∧ ∀ localeCompare,
      Notification_decode (toString localeCompare ex_loose)
      = Some (with_headers Notification {[lit "server" := lit "a:b"]})
      ∧ Notification_decode (toString localeCompare ex_loose) ≠ Some ex_loose.
Proof.
  split.
  - unfold ex_loose. simpl _headers.
    intros k v [<- <-]%lookup_singleton_Some. repeat split.
  - intros localeCompare.
    assert (E : toString localeCompare ex_loose
                = lit "NOTIFY * HTTP/1.1" ++ [CR; LF]
                  ++ lit "SERVER: a : b" ++ [CR; LF; CR; LF]).
    { rewrite toString_flat. unfold sorted_headers, ex_loose. simpl _headers.
      rewrite forEach_singleton. reflexivity. }
    rewrite E. split; [by vm_compute|]. vm_compute. discriminate.
Qed.

(** C1, amended.  Take a header set that is a [Headers] object and in
    which no value has white space at an end of any of the places between
    its colons.  For each message kind, decoding the encoding of a message
    that carries this header set gives back the message: the same header
    set, names compared without regard to case. *)
Theorem header_round_trip (localeCompare : list ascii → list ascii → Z)
    (h : gmap (list ascii) (list ascii)) (host : list ascii) (port : Z) :
  Headers.wf h →
  (∀ k v, h !! k = Some v → colon_tight v) →
  Search_decode (toString localeCompare (with_headers (Search host port) h)) host port
  = Some (with_headers (Search host port) h)
  ∧ Notification_decode (toString localeCompare (with_headers Notification h))
    = Some (with_headers Notification h)
  ∧ Reply_decode (toString localeCompare (with_headers Reply h))
    = Some (with_headers Reply h).
Proof.
  intros Hwf Htight.
  unfold Search_decode, Notification_decode, Reply_decode.
  rewrite !decode_toString by done. done.
Qed.

Lemma header_round_trip_witness :
  Notification_decode (toString unit_compare (with_headers Notification ex_byebye))
  = Some (with_headers Notification ex_byebye).
Proof.
  apply (header_round_trip unit_compare ex_byebye [] 0).
  - intros k v Hkv. unfold ex_byebye in Hkv.
    apply lookup_insert_Some in Hkv as [[<- <-]|[_ [<- <-]%lookup_singleton_Some]];
      repeat split.
  - intros k v Hkv. unfold ex_byebye in Hkv.
    apply lookup_insert_Some in Hkv as [[<- <-]|[_ [<- <-]%lookup_singleton_Some]];
      vm_compute; repeat constructor.
Defined.

(** ** Setting, reading and deleting one header *)

Lemma lower_unit_token (c : ascii) :
  Headers.is_token_unit c = true →
  Headers.is_token_unit (lower_unit c) = true
  ∧ lower_unit (lower_unit c) = lower_unit c.
Proof.
  intros H.
  pose proof (by_units
    (fun c => implb (Headers.is_token_unit c)
                (Headers.is_token_unit (lower_unit c)
                 && bool_decide (lower_unit (lower_unit c) = lower_unit c)))
    eq_refl c) as E.
  simpl in E. rewrite H in E. simpl in E.
  by apply andb_prop in E as [E1 E2%bool_decide_eq_true].
Qed.

Lemma tokens_lower (k : list ascii) :
  forallb Headers.is_token_unit k = true →
  forallb Headers.is_token_unit (toLowerCase k) = true
  ∧ toLowerCase (toLowerCase k) = toLowerCase k.
Proof.
  unfold toLowerCase. induction k as [|c k IH]; [done|]. simpl forallb at 1.
  intros [Hc Hk]%andb_prop. destruct (IH Hk) as [IH1 IH2].
  destruct (lower_unit_token c Hc) as [H1 H2].
  simpl. by rewrite H1, IH1, H2, IH2.
Qed.

Lemma valid_name_lower (k : list ascii) :
  Headers.valid_name k = true →
  Headers.valid_name (toLowerCase k) = true
  ∧ toLowerCase (toLowerCase k) = toLowerCase k.
Proof.
  unfold Headers.valid_name. intros [Hne Htok]%andb_prop.
  destruct (tokens_lower k Htok) as [H1 H2]. split; [|done].
  rewrite H1, andb_true_r. apply negb_true_iff, bool_decide_eq_false.
  apply negb_true_iff, bool_decide_eq_false in Hne.
  intros E. apply Hne. unfold toLowerCase in E. by apply map_eq_nil in E.
Qed.

(** X1. After a [setHeader] that did not throw, the header is present and
    reads back as the trimmed value -- except that an empty value reads as
    absent although [hasHeader] is true.  Headers under other names (names
    that are tokens, as [get] and [has] require), and the rest of the
    message, are untouched. *)
Theorem setHeader_then_get (p p' : Payload) (key value : list ascii) :
  setHeader p key value = Some p' →
  hasHeader p' key = true
  ∧ getHeader p' key = (if decide (trim value = []) then None else Some (trim value))
  ∧ (∀ key', Headers.valid_name (toUpperCase (trim key')) = true →
       toLowerCase (toUpperCase (trim key')) ≠ toLowerCase (toUpperCase (trim key)) →
       getHeader p' key' = getHeader p key' ∧ hasHeader p' key' = hasHeader p key')
  ∧ method p' = method p ∧ isReply p' = isReply p ∧ endpoint p' = endpoint p.
Proof.
  unfold setHeader, Headers.set. rewrite normalize_trim.
  destruct (_ && _); [|done]. simpl. intros [= <-].
  unfold hasHeader, getHeader, Headers.has, Headers.get. simpl _headers.
  split; [|split; [|split]].
  - rewrite lookup_insert_eq. by apply bool_decide_eq_true.
  - rewrite lookup_insert_eq. destruct (decide (trim value = [])) as [->|Hne]; [done|].
    by destruct (trim value).
  - intros key' _ Hne. by rewrite !lookup_insert_ne.
  - done.
Qed.

Lemma setHeader_then_get_witness :
  ∃ p', setHeader (Search (lit "239.255.255.250") 1900) (lit " ext ") (lit "  ") = Some p'
        ∧ hasHeader p' (lit " ext ") = true ∧ getHeader p' (lit " ext ") = None.
Proof.
  pose proof (setHeader_ok (Search (lit "239.255.255.250") 1900)
                (lit " ext ") (lit "  ") eq_refl eq_refl) as H.
  eexists. split; [exact H|].
  destruct (setHeader_then_get _ _ _ _ H) as (H1 & H2 & _).
  split; [exact H1|]. rewrite H2. reflexivity.
Defined.

(** X2. For a key and a value of 8-bit code units -- the text a byte
    string can hold -- [setHeader] throws exactly when the trimmed,
    upper-cased key is not an HTTP token (empty, or holding a blank, a
    colon or any other separator) or the trimmed value holds NUL, CR or
    LF. *)
Theorem setHeader_throws_iff (p : Payload) (key value : list ascii) :
  setHeader p key value = None
  ↔ Headers.valid_name (toUpperCase (trim key)) = false
    ∨ Headers.valid_value (trim value) = false.
Proof.
  unfold setHeader, Headers.set. rewrite normalize_trim.
  destruct (Headers.valid_name _); destruct (Headers.valid_value _); simpl;
    (split; [intros ?; first [done | by left | by right] | intros [?|?]; done]).
Qed.

(** X3. [deleteHeader] throws exactly on a key that is not a token.  After
    it the header is gone, every header under another token name is as
    before, and deleting a header that [setHeader] has just added to a
    message that lacked it gives the message back. *)
Theorem deleteHeader_spec (p : Payload) (key : list ascii) :
  (deleteHeader p key = None ↔ Headers.valid_name (toUpperCase (trim key)) = false)
  ∧ (∀ p', deleteHeader p key = Some p' →
       hasHeader p' key = false ∧ getHeader p' key = None
       ∧ ∀ key', Headers.valid_name (toUpperCase (trim key')) = true →
           toLowerCase (toUpperCase (trim key')) ≠ toLowerCase (toUpperCase (trim key)) →
           getHeader p' key' = getHeader p key')
  ∧ (∀ value p', hasHeader p key = false → setHeader p key value = Some p' →
       deleteHeader p' key = Some p).
Proof.
  unfold deleteHeader. split; [|split].
  - by destruct (Headers.valid_name _).
  - intros p'. destruct (Headers.valid_name _); [|done]. intros [= <-].
    unfold hasHeader, getHeader, Headers.has, Headers.get, Headers.delete.
    simpl _headers. rewrite lookup_delete_eq. split; [|split; [done|]].
    + apply bool_decide_eq_false. by intros [? ?].
    + intros key' _ Hne. by rewrite lookup_delete_ne.
  - intros value p' Hhas. unfold setHeader, Headers.set.
    destruct (Headers.valid_name _) eqn:Hn; [|done]. simpl andb.
    destruct (Headers.valid_value _); [|done]. simpl. intros [= <-].
    simpl _headers. unfold Headers.delete. rewrite delete_insert_eq.
    unfold hasHeader, Headers.has in Hhas.
    apply bool_decide_eq_false in Hhas.
    rewrite delete_id.
    + by destruct p.
    + destruct (_headers p !! _) eqn:E; [|done]. destruct Hhas. by eexists.
Qed.

Lemma deleteHeader_spec_witness :
  ∃ p', setHeader (Search (lit "239.255.255.250") 1900) (lit "MX") (lit "3") = Some p'
        ∧ deleteHeader p' (lit "mx") = Some (Search (lit "239.255.255.250") 1900).
Proof.
  pose proof (setHeader_ok (Search (lit "239.255.255.250") 1900)
                (lit "MX") (lit "3") eq_refl eq_refl) as H.
  eexists. split; [exact H|].
  destruct (deleteHeader_spec (Search (lit "239.255.255.250") 1900) (lit "MX"))
    as (_ & _ & Hd).
  exact (Hd (lit "3") _ eq_refl H).
Defined.

(** X4. Header names are case-insensitive: for a key that is a token,
    reading, testing and writing under the key, its upper-case form or its
    lower-case form are the same operation. *)
Theorem header_names_ignore_case (p : Payload) (key value : list ascii) :
  Headers.valid_name key = true →
  getHeader p (toUpperCase key) = getHeader p key
  ∧ getHeader p (toLowerCase key) = getHeader p key
  ∧ hasHeader p (toUpperCase key) = hasHeader p key
  ∧ hasHeader p (toLowerCase key) = hasHeader p key
  ∧ setHeader p (toUpperCase key) value = setHeader p key value
  ∧ setHeader p (toLowerCase key) value = setHeader p key value.
Proof.
  intros Hname. pose proof Hname as Hn. unfold Headers.valid_name in Hn.
  apply andb_prop in Hn as [Hne Htok].
  destruct (tokens_upper key Htok) as (HU1 & HU2 & HU3).
  destruct (tokens_lower key Htok) as (HL1 & HL2).
  destruct (tokens_upper _ HU1) as (HUU1 & HUU2 & _).
  destruct (tokens_upper _ HL1) as (HLU1 & HLU2 & HLU3).
  pose proof (trimmed_trim key (tokens_trimmed key Htok)) as T0.
  pose proof (trimmed_trim _ (tokens_trimmed _ HU1)) as T1.
  pose proof (trimmed_trim _ (tokens_trimmed _ HL1)) as T2.
  assert (E1 : toLowerCase (toUpperCase (trim (toUpperCase key)))
               = toLowerCase (toUpperCase (trim key))).
  { by rewrite T0, T1, HUU2. }
  assert (E2 : toLowerCase (toUpperCase (trim (toLowerCase key)))
               = toLowerCase (toUpperCase (trim key))).
  { by rewrite T0, T2, HLU2, HL2, HU2. }
  assert (V : ∀ k, forallb Headers.is_token_unit k = true → length k = length key →
                   Headers.valid_name k = true).
  { intros k Hk Hlen. unfold Headers.valid_name. rewrite Hk, andb_true_r.
    apply negb_true_iff, bool_decide_eq_false.
    apply negb_true_iff, bool_decide_eq_false in Hne.
    intros ->. apply Hne. by apply nil_length_inv. }
  assert (L : length (toLowerCase key) = length key) by apply length_map.
  unfold getHeader, hasHeader, setHeader, Headers.get, Headers.has, Headers.set.
  rewrite E1, E2. repeat split; try done.
  - rewrite T0, T1. rewrite (V _ HUU1) by (destruct (tokens_upper _ HU1) as (_&_&->); done).
    by rewrite (V _ HU1).
  - rewrite T0, T2. rewrite (V _ HLU1) by (by rewrite HLU3).
    by rewrite (V _ HU1).
Qed.

Lemma header_names_ignore_case_witness :
  getHeader (with_headers Notification ex_byebye) (lit "nts")
  = getHeader (with_headers Notification ex_byebye) (lit "NTS").
Proof.
  destruct (header_names_ignore_case (with_headers Notification ex_byebye)
              (lit "NTS") [] eq_refl) as (_ & H & _).
  exact H.
Defined.

(** ** What a message's headers always look like *)

Lemma Headers_set_wf (h h' : gmap (list ascii) (list ascii)) (name v : list ascii) :
  Headers.wf h → trimmed v → Headers.set h name v = Some h' → Headers.wf h'.
Proof.
  intros Hwf Hv. unfold Headers.set. rewrite (trimmed_normalize v Hv).
  destruct (Headers.valid_name name) eqn:Hn; [|done].
  destruct (Headers.valid_value v) eqn:Hval; [|done]. simpl. intros [= <-].
  intros k x [[<- <-]|[_ Hk]]%lookup_insert_Some; [|by apply Hwf].
  destruct (valid_name_lower name Hn) as [H1 H2].
  repeat split; try done. by apply trimmed_normalize.
Qed.

(** X5. The headers of a message are always a well-formed [Headers]
    object -- lower-case token names, values without NUL, CR or LF and
    without outer white space: this holds of a fresh Search, Notification
    or Reply and is kept by [setHeader] and [deleteHeader]. *)
Theorem message_headers_wf :
  (∀ host port, Headers.wf (_headers (Search host port)))
  ∧ Headers.wf (_headers Notification)
  ∧ Headers.wf (_headers Reply)
  ∧ (∀ p p' key value, Headers.wf (_headers p) →
       setHeader p key value = Some p' → Headers.wf (_headers p'))
  ∧ (∀ p p' key, Headers.wf (_headers p) →
       deleteHeader p key = Some p' → Headers.wf (_headers p')).
Proof.
  assert (E : Headers.wf ∅) by (intros k v H; by rewrite lookup_empty in H).
  split; [intros; exact E|]. split; [exact E|]. split; [exact E|]. split.
  - intros p p' key value Hwf. unfold setHeader.
    destruct (Headers.set _ _ _) as [h'|] eqn:Hset; [|done].
    simpl. intros [= <-]. simpl.
    eapply Headers_set_wf; [exact Hwf| |exact Hset]. apply trim_trimmed.
  - intros p p' key Hwf. unfold deleteHeader.
    destruct (Headers.valid_name _); [|done]. intros [= <-]. simpl.
    unfold Headers.delete. intros k v [_ Hk]%lookup_delete_Some. by apply Hwf.
Qed.

Lemma message_headers_wf_witness :
  ∃ p', setHeader Notification (lit "nt") (lit " upnp:rootdevice ") = Some p'
        ∧ Headers.wf (_headers p').
Proof.
  pose proof (setHeader_ok Notification (lit "nt") (lit " upnp:rootdevice ")
                eq_refl eq_refl) as H.
  eexists. split; [exact H|].
  destruct message_headers_wf as (_ & Hn & _ & Hs & _).
  exact (Hs Notification _ _ _ Hn H).
Defined.

(** ** Decoding gives headers that encode and decode to themselves *)

Lemma foldl_bind_None {A B} (f : A → B → option A) (l : list B) :
  foldl (fun acc x => acc ≫= fun a => f a x) None l = None.
Proof. induction l as [|x l IH]; [done|]. exact IH. Qed.

Lemma split_pieces_no_sep (sep : ascii) (s : list ascii) :
  Forall (fun p => sep ∉ p) (split sep s).
Proof.
  induction s as [|c s IH]; simpl.
  - constructor; [apply not_elem_of_nil|constructor].
  - destruct (decide (c = sep)) as [->|Hne].
    + constructor; [apply not_elem_of_nil|exact IH].
    + destruct (split sep s) as [|p ps]; [repeat constructor|].
      * by intros [?|[]%elem_of_nil]%elem_of_cons.
      * apply Forall_cons in IH as [Hp Hps]. constructor; [|done].
        by intros [?|?]%elem_of_cons.
Qed.

Lemma split_join (sep : ascii) (ps : list (list ascii)) :
  ps ≠ [] → Forall (fun p => sep ∉ p) ps → split sep (join [sep] ps) = ps.
Proof.
  induction ps as [|p ps IH]; [done|]. intros _ H.
  apply Forall_cons in H as [Hp Hps]. destruct ps as [|q ps].
  - simpl. by apply split_no_sep.
  - rewrite join_cons. simpl app. rewrite split_at_sep by done.
    f_equal. by apply IH.
Qed.

Lemma trimStart_subset (c : ascii) (s : list ascii) : c ∉ s → c ∉ trimStart s.
Proof.
  intros H Hin. apply H. destruct (trimStart_suffix s) as (w & _ & E).
  rewrite E. apply elem_of_app. by right.
Qed.

Lemma rev_subset (c : ascii) (s : list ascii) : c ∉ s → c ∉ rev s.
Proof.
  intros H Hin. apply H. apply list_elem_of_In, in_rev.
  by apply list_elem_of_In.
Qed.

Lemma trim_subset (c : ascii) (s : list ascii) : c ∉ s → c ∉ trim s.
Proof.
  intros H. unfold trim, trimEnd.
  by apply rev_subset, trimStart_subset, rev_subset, trimStart_subset.
Qed.

(** The value [decode_line] hands to [Headers.set] is already tight. *)
Lemma decoded_value_tight (ps : list (list ascii)) :
  ps ≠ [] → Forall (fun p => colon ∉ p) ps →
  colon_tight (trim (join [colon] (map trim ps)))
  ∧ trimmed (trim (join [colon] (map trim ps))).
Proof.
  intros Hne Hps.
  assert (Hsplit : split colon (join [colon] (map trim ps)) = map trim ps).
  { apply split_join; [by destruct ps|].
    apply Forall_fmap. eapply Forall_impl; [exact Hps|].
    intros p Hp. by apply trim_subset. }
  assert (Htight : colon_tight (join [colon] (map trim ps))).
  { unfold colon_tight. rewrite Hsplit. apply Forall_fmap, Forall_true.
    intros p. apply trim_trimmed. }
  rewrite (trimmed_trim _ (pieces_trimmed _ Htight)).
  split; [exact Htight | by apply pieces_trimmed].
Qed.

Lemma decode_line_decoded (h h' : gmap (list ascii) (list ascii)) (line : list ascii) :
  decoded h → decode_line h line = Some h' → decoded h'.
Proof.
  intros [Hwf Htight] Hdec. unfold decode_line in Hdec.
  pose proof (split_pieces_no_sep colon line) as Hps.
  destruct (split colon line) as [|key value].
  { simpl in Hdec. injection Hdec as <-. by split. }
  apply Forall_cons in Hps as [_ Hps]. simpl map in Hdec.
  cbv iota beta in Hdec.
  match type of Hdec with
  | (if ?c then _ else _) = _ => destruct c eqn:Hc
  end.
  2: { injection Hdec as <-. by split. }
  apply andb_prop in Hc as [_ Hlen%bool_decide_eq_true].
  assert (Hne : value ≠ []) by (intros ->; simpl in Hlen; lia).
  destruct (decoded_value_tight value Hne Hps) as [Ht Htr].
  split.
  - by eapply Headers_set_wf.
  - revert Hdec. unfold Headers.set. rewrite (trimmed_normalize _ Htr).
    destruct (_ && _); [|done]. intros [= <-].
    intros k v [[_ <-]|[_ Hk]]%lookup_insert_Some; [done|by apply (Htight k)].
Qed.

Lemma decode_decoded (payload : list ascii) (h : gmap (list ascii) (list ascii)) :
  _decode payload = Some h → decoded h.
Proof.
  unfold _decode.
  assert (H0 : decoded ∅).
  { split; intros k v H; by rewrite lookup_empty in H. }
  revert H0. generalize (∅ : gmap (list ascii) (list ascii)).
  induction (payload_lines payload) as [|line lines IH]; intros h0 H0.
  - by intros [= <-].
  - simpl foldl. destruct (decode_line h0 line) as [h1|] eqn:E.
    + apply IH. by eapply decode_line_decoded.
    + by rewrite foldl_bind_None.
Qed.

(** X6. Whatever text [_decode] accepts, the header set it returns is a
    well-formed [Headers] object, no value in it has white space at an end
    of a place between colons, and encoding a message that carries it and
    decoding again returns the same header set: decoded messages always
    survive the round trip. *)
Theorem decode_is_stable (localeCompare : list ascii → list ascii → Z)
    (payload : list ascii) (h : gmap (list ascii) (list ascii)) :
  _decode payload = Some h →
  Headers.wf h
  ∧ (∀ k v, h !! k = Some v → colon_tight v)
  ∧ ∀ p, _headers p = h → _decode (toString localeCompare p) = Some h.
Proof.
  intros [Hwf Htight]%decode_decoded. split; [done|]. split; [done|].
  intros p <-. by apply decode_toString.
Qed.

Lemma decode_is_stable_witness :
  ∃ h, _decode (lit "NOTIFY * HTTP/1.1" ++ [CR; LF] ++ lit "X: a : b" ++ [CR; LF; CR; LF])
       = Some h
       ∧ h !! lit "x" = Some (lit "a:b")
       ∧ _decode (toString unit_compare (with_headers Notification h)) = Some h.
Proof.
  exists {[lit "x" := lit "a:b"]}.
  assert (H : _decode (lit "NOTIFY * HTTP/1.1" ++ [CR; LF] ++ lit "X: a : b"
                       ++ [CR; LF; CR; LF])
              = Some {[lit "x" := lit "a:b"]}) by reflexivity.
  split; [exact H|]. split; [reflexivity|].
  destruct (decode_is_stable unit_compare _ _ H) as (_ & _ & Hrt).
  by apply Hrt.
Defined.

(** ** From the encoder to the receiving socket *)

Lemma dispatch_prefix (localeCompare : list ascii → list ascii → Z) (p : Payload) :
  startsWith (toString localeCompare p) (lit "M-SEARCH")
  = match method p with M_SEARCH => true | _ => false end
  ∧ startsWith (toString localeCompare p) (lit "NOTIFY")
    = match method p with NOTIFY => true | _ => false end.
Proof. rewrite toString_flat. destruct (method p); split; reflexivity. Qed.

(** What the receiving socket makes of an encoded message. *)
Lemma on_message_toString (localeCompare : list ascii → list ascii → Z)
    (p : Payload) (local remote : AddressInfo) :
  decoded (_headers p) →
  SSDP.on_message (toString localeCompare p) local remote
  = match method p with
    | M_SEARCH =>
        let q := with_headers (Search remote.1 remote.2) (_headers p) in
        if bool_decide (getHeader q (lit "MAN") = Some ssdp_discover)
           && hasHeader q (lit "ST")
        then [SSDP.search_ q local remote] else []
    | NOTIFY => [SSDP.notification_ (with_headers Notification (_headers p)) local remote]
    | REPLY => [SSDP.reply_ (with_headers Reply (_headers p)) local remote]
    end.
Proof.
  intros [Hwf Htight]. unfold SSDP.on_message.
  destruct (dispatch_prefix localeCompare p) as [-> ->].
  unfold Search_decode, Notification_decode, Reply_decode.
  rewrite (decode_toString localeCompare p Hwf Htight).
  by destruct (method p).
Qed.

(** X7. Encoding a message whose headers survive the round trip and
    handing the text to a receiving socket gives one event of the same
    kind with the same headers: a Notification arrives as 'notification',
    a Reply as 'reply'.  A Search arrives as 'search' exactly when it has
    the quoted MAN and an ST header, and the Search the receiver sees
    carries the sender's address and port, not those it was built with. *)
Theorem wire_dispatch (localeCompare : list ascii → list ascii → Z)
    (h : gmap (list ascii) (list ascii)) (host : list ascii) (port : Z)
    (local remote : AddressInfo) :
  decoded h →
  SSDP.on_message (toString localeCompare (with_headers Notification h)) local remote
  = [SSDP.notification_ (with_headers Notification h) local remote]
  ∧ SSDP.on_message (toString localeCompare (with_headers Reply h)) local remote
    = [SSDP.reply_ (with_headers Reply h) local remote]
  ∧ SSDP.on_message (toString localeCompare (with_headers (Search host port) h))
      local remote
    = (let q := with_headers (Search remote.1 remote.2) h in
       if bool_decide (getHeader q (lit "MAN") = Some ssdp_discover)
          && hasHeader q (lit "ST")
       then [SSDP.search_ q local remote] else []).
Proof.
  intros Hd. rewrite !on_message_toString by exact Hd. done.
Qed.

Lemma wire_dispatch_witness :
  SSDP.on_message (toString unit_compare (with_headers Notification ex_byebye))
    ex_local ex_remote
  = [SSDP.notification_ (with_headers Notification ex_byebye) ex_local ex_remote].
Proof.
  apply (wire_dispatch unit_compare ex_byebye [] 0 ex_local ex_remote).
  unfold ex_byebye. split.
  - intros k v Hkv.
    apply lookup_insert_Some in Hkv as [[<- <-]|[_ [<- <-]%lookup_singleton_Some]];
      repeat split.
  - intros k v Hkv.
    apply lookup_insert_Some in Hkv as [[<- <-]|[_ [<- <-]%lookup_singleton_Some]];
      vm_compute; repeat constructor.
Defined.

(** ** Who listens to what *)

Lemma decode_no_newline (msg : list ascii) : LF ∉ msg → _decode msg = Some ∅.
Proof.
  intros H. unfold _decode, payload_lines. by rewrite split_no_sep.
Qed.

(** X8. The two roles keep to their own traffic.  A datagram that does not
    start with M-SEARCH never makes an Advertiser send or emit anything
    but a decode error; a datagram that starts with M-SEARCH never gives a
    Browser event other than a decode error; and a datagram without any
    newline -- the empty one included -- is dropped by both. *)
Theorem roles_keep_to_their_traffic (a : Advertiser.t) (b : Browser.t)
    (msg : list ascii) (local remote : AddressInfo) :
  (startsWith msg (lit "M-SEARCH") = false →
     Forall (fun eff => ∃ e, eff = Emit (error_event e) ∧ is_decode_error e)
            (Advertiser.receive a msg local remote))
  ∧ (startsWith msg (lit "M-SEARCH") = true →
     Forall (fun ev => ∃ e, ev = error_event e ∧ is_decode_error e)
            (Browser.receive b msg local remote))
  ∧ (LF ∉ msg →
     Advertiser.receive a msg local remote = []
     ∧ Browser.receive b msg local remote = []).
Proof.
  unfold Advertiser.receive, Browser.receive, SSDP.on_message.
  split; [|split].
  - intros ->. destruct (startsWith msg (lit "NOTIFY")).
    + destruct (Notification_decode msg); simpl; repeat constructor.
      by eexists.
    + destruct (Reply_decode msg); simpl; repeat constructor. by eexists.
  - intros ->. destruct (Search_decode msg remote.1 remote.2).
    + destruct (_ && _); simpl; repeat constructor.
    + simpl. repeat constructor. by eexists.
  - intros H. unfold Search_decode, Notification_decode, Reply_decode.
    rewrite (decode_no_newline msg H).
    destruct (startsWith msg (lit "M-SEARCH")); [done|].
    destruct (startsWith msg (lit "NOTIFY")); done.
Qed.

Lemma roles_keep_to_their_traffic_witness :
  Advertiser.receive ex_advertiser [] ex_local ex_remote = []
  ∧ Browser.receive ex_browser [] ex_local ex_remote = [].
Proof.
  destruct (roles_keep_to_their_traffic ex_advertiser ex_browser []
              ex_local ex_remote) as (_ & _ & H).
  apply H. apply not_elem_of_nil.
Defined.

(** ** Subscribing and unsubscribing *)

Lemma forEach_nil : Headers.forEach ∅ = [].
Proof. unfold Headers.forEach. by rewrite map_to_list_empty. Qed.

(** The Search that [browse] sends: default wait time, no extra headers. *)
Lemma search_default (target : list ascii) :
  Headers.valid_value target = true →
  SSDP.search target 3%float (init_headers ∅) = Returns (Resolves (browse_search target)).
Proof.
  intros Hv. unfold SSDP.search.
  change (PrimFloat.ltb 3 1 || PrimFloat.ltb 5 3)%float with false. cbv iota.
  unfold to_Headers. simpl mbind. unfold copy_headers. rewrite forEach_nil.
  simpl foldl. simpl mbind.
  repeat (rewrite setHeader_ok by valid_solver; simpl mbind).
  reflexivity.
Qed.

#[local] Arguments SSDP.search : simpl never.

Lemma browse_one (target : list ascii) :
  Headers.valid_value target = true →
  Browser.browse [target] = [Send (browse_search target)].
Proof.
  intros Hv. unfold Browser.browse, flat_map. by rewrite search_default.
Qed.

Lemma subscribe_unfold (b : Browser.t) (service : list ascii) :
  Browser.subscribe b service
  = ((if negb (bool_decide (subscribed_as service ∈ Browser._searchTargets b))
      then Browser.browse [subscribed_as service] else []),
     Browser.mk ({[subscribed_as service]} ∪ Browser._searchTargets b)).
Proof. reflexivity. Qed.

(** X9. [subscribe] stores [*] as ssdp:all and any other service under its
    own name.  If that name is already subscribed, nothing is sent and the
    Subscription Set is unchanged, so subscribing twice searches once.
    Otherwise exactly one Search for it goes to the multicast group, with
    the default MX of 3, and the name is added; [*] itself is never added. *)
Theorem subscribe_spec (b : Browser.t) (service : list ascii) :
  let s := subscribed_as service in
  Browser._searchTargets (Browser.subscribe b service).2
  = {[s]} ∪ Browser._searchTargets b
  ∧ (s ∈ Browser._searchTargets b → Browser.subscribe b service = ([], b))
  ∧ (s ∉ Browser._searchTargets b → Headers.valid_value s = true →
       (Browser.subscribe b service).1 = [Send (browse_search s)])
  ∧ (Browser.subscribe (Browser.subscribe b service).2 service).1 = []
  ∧ (lit "*" ∈ Browser._searchTargets (Browser.subscribe b service).2
     ↔ lit "*" ∈ Browser._searchTargets b).
Proof.
  intros s. rewrite !subscribe_unfold. fold s. cbn [fst snd Browser._searchTargets].
  split; [done|]. split; [|split; [|split]].
  - intros Hin. rewrite bool_decide_eq_true_2 by done. simpl.
    destruct b as [S]. simpl in *. do 2 f_equal. set_solver.
  - intros Hout Hv. rewrite bool_decide_eq_false_2 by done. simpl negb. cbv iota.
    by apply browse_one.
  - rewrite (bool_decide_eq_true_2 (s ∈ {[s]} ∪ _)) by set_solver. done.
  - assert (s ≠ lit "*").
    { unfold s, subscribed_as. destruct (decide (service = lit "*")); [discriminate|done]. }
    set_solver.
Qed.

Lemma subscribe_spec_witness :
  (Browser.subscribe ex_browser (lit "*")).1 = [Send (browse_search (lit "ssdp:all"))].
Proof.
  destruct (subscribe_spec ex_browser (lit "*")) as (_ & _ & H & _).
  apply H; [|reflexivity].
  unfold ex_browser. simpl. intros Hin%elem_of_singleton. discriminate Hin.
Defined.

(** X10. [unsubscribe] returns whether the service was subscribed and
    removes that name only; a second call returns false.  Afterwards no
    Reply or Notification for that target produces an event.  It takes
    the name literally: after [subscribe("*")], [unsubscribe("*")] finds
    nothing to remove and ssdp:all stays subscribed. *)
Theorem unsubscribe_spec (b : Browser.t) (service : list ascii) :
  let b' := (Browser.unsubscribe b service).1 in
  ((Browser.unsubscribe b service).2 = true ↔ service ∈ Browser._searchTargets b)
  ∧ (∀ t, t ∈ Browser._searchTargets b'
          ↔ t ∈ Browser._searchTargets b ∧ t ≠ service)
  ∧ (Browser.unsubscribe b' service).2 = false
  ∧ (∀ payload remote local,
       Browser.handle_payload b' service payload remote local = [])
  ∧ (∀ payload local remote,
       getHeader payload (lit "ST") = Some service →
       Browser.on_socket b' (SSDP.reply_ payload local remote) = [])
  ∧ (∀ payload local remote,
       getHeader payload (lit "NT") = Some service →
       Browser.on_socket b' (SSDP.notification_ payload local remote) = [])
  ∧ (service = lit "*" → lit "*" ∉ Browser._searchTargets b →
       let b1 := (Browser.subscribe b service).2 in
       (Browser.unsubscribe b1 service).2 = false
       ∧ lit "ssdp:all" ∈ Browser._searchTargets (Browser.unsubscribe b1 service).1).
Proof.
  intros b'. subst b'. unfold Browser.unsubscribe. simpl.
  assert (Hgone : ∀ payload remote local,
            Browser.handle_payload
              (Browser.mk (Browser._searchTargets b ∖ {[service]}))
              service payload remote local = []).
  { intros. unfold Browser.handle_payload. simpl.
    rewrite bool_decide_eq_false_2; [done|set_solver]. }
  split; [apply bool_decide_eq_true|]. split; [set_solver|]. split.
  { apply bool_decide_eq_false. set_solver. }
  split; [exact Hgone|]. split; [|split].
  - intros payload local remote ->. apply Hgone.
  - intros payload local remote ->. apply Hgone.
  - intros -> Hstar. unfold Browser.subscribe. simpl. split.
    + apply bool_decide_eq_false. set_solver.
    + assert (lit "ssdp:all" ≠ lit "*") by discriminate. set_solver.
Qed.

Lemma unsubscribe_spec_witness :
  Browser.on_socket (Browser.unsubscribe ex_browser (lit "urn:test:1")).1
    (SSDP.notification_ (with_headers Notification ex_byebye) ex_local ex_remote)
  = [].
Proof.
  destruct (unsubscribe_spec ex_browser (lit "urn:test:1")) as (_ & _ & _ & _ & _ & H & _).
  apply H. reflexivity.
Defined.

(** ** [Headers.set] keeps a [Headers] object well formed *)







(** ** Announcing *)




(** X12. [announce] throws exactly when the headers cannot be made into a
    [Headers] object or, for a service not yet in the table, when no USN
    can be written for it (the uuid or the service type holds NUL, CR or
    LF).  Whenever it throws, nothing has been sent and the Advertiser is
    as it was. *)
Theorem announce_throws (a : Advertiser.t) (service : list ascii)
    (headers : HeadersInit) :
  ((Advertiser.announce a service headers).2 = None
   ↔ to_Headers headers = None
     ∨ (Advertiser.map_has (Advertiser._services a) service = false
        ∧ Headers.valid_value
            (Headers.normalize (Advertiser.usn (Advertiser.uuid a) service)) = false))
  ∧ ((Advertiser.announce a service headers).2 = None →
     Advertiser.announce a service headers = ([], a, None)).
Proof.
  unfold Advertiser.announce.
  destruct (to_Headers headers) as [h|]; [|split; [split; [by left|done]|done]].
  destruct (Advertiser.map_has _ _); simpl negb; cbv iota.
  { split; [|done]. split; [done|]. by intros [?|[? _]]. }
  simpl Advertiser.notify. unfold Headers.set.
  replace (Headers.valid_name (lit "USN")) with true by reflexivity. simpl andb.
  destruct (Headers.valid_value _) eqn:Hv.
  - simpl. split; [|done]. split; [done|]. by intros [?|[_ ?]].
  - simpl. split; [|done]. split; [|done]. intros _. by right.
Qed.

Lemma announce_throws_witness :
  Advertiser.announce ex_advertiser (lit "bad" ++ [LF] ++ lit "name") (init_headers ∅)
  = ([], ex_advertiser, None).
Proof.
  destruct (announce_throws ex_advertiser (lit "bad" ++ [LF] ++ lit "name")
              (init_headers ∅)) as [_ H].
  apply H. reflexivity.
Defined.

(** ** The periodic sweep and the farewell *)



(** ** What an Advertiser sends in answer to a search *)

Lemma copy_fold_method (l : list (list ascii * list ascii)) (m m' : Payload) :
  foldl (fun acc kv => acc ≫= fun m => setHeader m kv.1 kv.2) (Some m) l = Some m' →
  method m' = method m.
Proof.
  revert m. induction l as [|[k v] l IH]; intros m; [by intros [= <-]|].
  simpl foldl. destruct (setHeader m k v) as [m1|] eqn:E.
  - intros H. rewrite (IH m1 H). unfold setHeader in E.
    destruct (Headers.set _ _ _); [|done]. by injection E as <-.
  - by rewrite foldl_bind_None.
Qed.

Lemma reply_message_method (id service : list ascii)
    (h : gmap (list ascii) (list ascii)) (r : Payload) :
  Advertiser.reply_message id service h = Some r → method r = REPLY.
Proof.
  unfold Advertiser.reply_message, copy_headers.
  destruct (foldl _ _ _) as [r0|] eqn:E0; [|done]. simpl mbind.
  apply copy_fold_method in E0.
  destruct (setHeader r0 (lit "ST") service) as [r1|] eqn:E1; [|done]. simpl mbind.
  intros E2. unfold setHeader in E1, E2.
  destruct (Headers.set (_headers r0) _ _); [|done]. injection E1 as <-.
  destruct (Headers.set _ _ _); [|done]. injection E2 as <-. exact E0.
Qed.

Lemma reply_sends (a : Advertiser.t) (request : Payload)
    (services : list (list ascii * gmap (list ascii) (list ascii)))
    (eff : Effect) :
  eff ∈ (Advertiser.reply a request services).1 →
  ∃ r, eff = Send (mkDatagram r (endpoint request)) ∧ method r = REPLY.
Proof.
  induction services as [|[k h] l IH]; simpl.
  - by intros []%elem_of_nil.
  - destruct (Advertiser.reply_message (Advertiser.uuid a) k h) as [r|] eqn:E.
    + destruct (Advertiser.reply a request l) as [tr res]. simpl in *.
      intros [->|Hin]%elem_of_cons; [|by apply IH].
      exists r. split; [done|]. by eapply reply_message_method.
    + by intros []%elem_of_nil.
Qed.

(** X15. Whatever the Search, the uuid and the Service Table: everything an
    Advertiser sends in answer to a Search is a Reply addressed to the
    host and port that Search carries, never to the multicast group, and
    it sends only when the MAN header is the quoted ssdp:discover and the
    authentication hook has approved the sender.  When the hook rejects
    the sender nothing at all happens: no event, no reply, no error. *)
Theorem replies_only_to_the_requester (a : Advertiser.t) (p : Payload)
    (local remote : AddressInfo) :
  (∀ d, Send d ∈ (Advertiser.handle_payload a p local remote).1 →
     dst d = endpoint p ∧ method (message d) = REPLY
     ∧ getHeader p (lit "MAN") = Some ssdp_discover
     ∧ Advertiser.authenticationProvider a remote.1 = true)
  ∧ (Advertiser.authenticationProvider a remote.1 = false →
     Advertiser.handle_payload a p local remote = ([], Resolves false)).
Proof.
  unfold Advertiser.handle_payload.
  destruct (getHeader p (lit "ST")) as [target|]; [|split; [by intros d []%elem_of_nil|done]].
  destruct (bool_decide (getHeader p (lit "MAN") = Some ssdp_discover)) eqn:Hman;
    simpl negb; cbv iota; [|split; [by intros d []%elem_of_nil|done]].
  apply bool_decide_eq_true in Hman.
  destruct (Advertiser.authenticationProvider a remote.1) eqn:Hauth;
    simpl negb; cbv iota; [|split; [by intros d []%elem_of_nil|done]].
  split; [|done]. intros d.
  assert (Hrep : ∀ services,
            Send d ∈ (let '(tr, res) := Advertiser.reply a p services in
                      (Emit (search_event target p remote local) :: tr,
                       of_option res)).1 →
            dst d = endpoint p ∧ method (message d) = REPLY
            ∧ getHeader p (lit "MAN") = Some ssdp_discover ∧ true = true).
  { intros services.
    pose proof (reply_sends a p services (Send d)) as Hs.
    destruct (Advertiser.reply a p services) as [tr res]. simpl in *.
    intros [[=]|Hin]%elem_of_cons.
    destruct (Hs Hin) as (r & [= ->] & Hr). done. }
  repeat case_decide; try apply Hrep.
  destruct (Advertiser.map_get _ _); [apply Hrep|].
  simpl. intros [[=]|[]%elem_of_nil]%elem_of_cons.
Qed.

Lemma replies_only_to_the_requester_witness :
  Advertiser.handle_payload ex_closed_advertiser (ex_search_for (lit "upnp:rootdevice"))
    ex_local ex_remote
  = ([], Resolves false).
Proof.
  destruct (replies_only_to_the_requester ex_closed_advertiser
              (ex_search_for (lit "upnp:rootdevice")) ex_local ex_remote) as [_ H].
  apply H. reflexivity.
Defined.




(** ** Values that cross the wire unchanged *)












(** ** From the Advertiser to the Browser *)









(** ** The discovery loop *)




(** ** More on searching and notifying *)

Lemma setHeader_ok_trim (p : Payload) (key v : list ascii) :
  Headers.valid_name (toUpperCase (trim key)) = true →
  Headers.valid_value (trim v) = true →
  setHeader p key v
  = Some (with_headers p
            (<[toLowerCase (toUpperCase (trim key)) := trim v]> (_headers p))).
Proof.
  intros Hn Hv. unfold setHeader, Headers.set. rewrite normalize_trim.
  by rewrite Hn, Hv.
Qed.

Lemma setHeader_fails (p : Payload) (key v : list ascii) :
  Headers.valid_value (trim v) = false → setHeader p key v = None.
Proof.
  intros Hv. unfold setHeader, Headers.set. rewrite normalize_trim.
  by rewrite Hv, andb_false_r.
Qed.

Lemma search_rejected (target : list ascii) :
  Headers.valid_value (trim target) = false →
  SSDP.search target 3%float (init_headers ∅) = Returns (Rejects TypeError).
Proof.
  intros Hv. unfold SSDP.search.
  change (PrimFloat.ltb 3 1 || PrimFloat.ltb 5 3)%float with false. cbv iota.
  unfold to_Headers. cbn [mbind option_bind]. unfold copy_headers.
  rewrite forEach_nil. cbn [foldl mbind option_bind].
  rewrite setHeader_ok by valid_solver. cbn [mbind option_bind].
  rewrite setHeader_ok by valid_solver. cbn [mbind option_bind].
  by rewrite setHeader_fails.
Qed.

Lemma setHeader_trim_value (p : Payload) (key v : list ascii) :
  setHeader p key (trim v) = setHeader p key v.
Proof. unfold setHeader. by rewrite trim_idem. Qed.

Lemma search_default_trim (target : list ascii) :
  Headers.valid_value (trim target) = true →
  SSDP.search target 3%float (init_headers ∅) = Returns (Resolves (browse_search target)).
Proof.
  intros Hv. transitivity (SSDP.search (trim target) 3%float (init_headers ∅)).
  - unfold SSDP.search.
    change (PrimFloat.ltb 3 1 || PrimFloat.ltb 5 3)%float with false. cbv iota.
    unfold to_Headers. cbn [mbind option_bind]. unfold copy_headers.
    rewrite forEach_nil. cbn [foldl mbind option_bind].
    rewrite !(setHeader_ok _ (lit "MAN")) by valid_solver. cbn [mbind option_bind].
    rewrite !(setHeader_ok _ (lit "HOST")) by valid_solver. cbn [mbind option_bind].
    by rewrite <- (setHeader_trim_value _ (lit "ST") target).
  - rewrite search_default by exact Hv. unfold browse_search, browse_headers.
    by rewrite trim_idem.
Qed.

(** X20. [browse] -- the body of [searchNow] and of every Browser tick --
    deals with its targets one by one and in order: a target that can be
    an ST value gets exactly one Search (MX 3, to the multicast group); a
    target holding NUL, CR or LF inside gets none, its rejected promise is
    left unhandled, and the other targets are searched all the same.  An
    empty list sends nothing. *)
Theorem browse_spec (targets : list (list ascii)) :
  Browser.browse targets = map browse_effect targets
  ∧ Browser.browse [] = [].
Proof.
  split; [|reflexivity].
  induction targets as [|t l IH]; [reflexivity|].
  change (Browser.browse (t :: l))
    with (Browser.fire (SSDP.search t 3%float (init_headers ∅)) ++ Browser.browse l).
  rewrite IH. unfold browse_effect at 2. cbn [map].
  destruct (Headers.valid_value (trim t)) eqn:Hv.
  - by rewrite search_default_trim.
  - by rewrite search_rejected.
Qed.

(** ** When decoding fails *)

Lemma decode_line_fails_anywhere (h : gmap (list ascii) (list ascii))
    (line : list ascii) :
  decode_line h line = None ↔ bad_line line.
Proof.
  unfold bad_line, decode_line, Headers.set.
  destruct (map trim (split colon line)) as [|key value]; [done|].
  destruct (negb _ && _); [|done].
  by destruct (Headers.valid_name _ && Headers.valid_value _).
Qed.

Lemma decode_fold_fails (lines : list (list ascii))
    (h0 : gmap (list ascii) (list ascii)) :
  foldl (fun acc line => acc ≫= fun h => decode_line h line) (Some h0) lines = None
  ↔ Exists bad_line lines.
Proof.
  revert h0. induction lines as [|line lines IH]; intros h0.
  - split; [done|]. by intros H%Exists_nil.
  - cbn [foldl mbind option_bind]. rewrite Exists_cons.
    destruct (decode_line h0 line) as [h1|] eqn:E.
    + rewrite IH. split; [by right|]. intros [Hbad|?]; [|done].
      apply (decode_line_fails_anywhere h0) in Hbad. congruence.
    + rewrite foldl_bind_None. split; [|done]. intros _. left.
      by apply (decode_line_fails_anywhere h0).
Qed.

(** X24. For a datagram whose text holds 8-bit code units only: decoding
    fails -- and the socket then emits one error event tagged with the
    kind it tried, instead of a message event -- exactly when some line
    after the first, once trimmed, makes [Headers.set] throw.  A line
    without a colon never does; a line with a colon does exactly when the text left of the first colon is not blank and either
    is not an HTTP token once trimmed and upper-cased, or the value holds
    NUL, CR or LF after trimming. *)
Theorem decode_fails_iff (payload : list ascii) (local remote : AddressInfo) :
  (_decode payload = None ↔ Exists bad_line (payload_lines payload))
  ∧ (∀ line, colon ∉ line → ¬ bad_line line)
  ∧ (∀ k v, colon ∉ k →
       (bad_line (k ++ colon :: v)
        ↔ trim k ≠ []
          ∧ (Headers.valid_name (toUpperCase (trim k)) = false
             ∨ Headers.valid_value
                 (trim (join [colon] (map trim (split colon v)))) = false)))
  ∧ (_decode payload = None →
     ∃ kind, SSDP.on_message payload local remote = [SSDP.error_ (DecodeError kind)])
  ∧ (∀ e, SSDP.error_ e ∈ SSDP.on_message payload local remote →
          _decode payload = None).
Proof.
  split; [apply decode_fold_fails|]. split; [|split; [|split]].
  - intros line Hc. unfold bad_line. by rewrite decode_line_no_colon.
  - intros k v Hk. unfold bad_line. rewrite decode_line_colon by done.
    unfold Headers.set. rewrite normalize_trim.
    destruct (decide (trim k = [])) as [->|Hne].
    + rewrite bool_decide_eq_true_2 by done. split; [done|]. by intros [? _].
    + rewrite bool_decide_eq_false_2 by done.
      destruct (Headers.valid_name _); destruct (Headers.valid_value _); simpl;
        (split; [intros ?; split; first [done | by left | by right]
                | intros [_ [?|?]]; done]).
  - intros Hnone. unfold SSDP.on_message, Search_decode, Notification_decode,
      Reply_decode. rewrite Hnone. cbn [fmap option_fmap option_map].
    destruct (startsWith payload (lit "M-SEARCH")); [by eexists|].
    destruct (startsWith payload (lit "NOTIFY")); by eexists.
  - intros e. unfold SSDP.on_message, Search_decode, Notification_decode,
      Reply_decode.
    destruct (_decode payload) as [h|]; [|done].
    cbn [fmap option_fmap option_map].
    destruct (startsWith payload (lit "M-SEARCH")).
    + destruct (_ && _).
      * by intros [[=]|[]%elem_of_nil]%elem_of_cons.
      * by intros []%elem_of_nil.
    + destruct (startsWith payload (lit "NOTIFY"));
        by intros [[=]|[]%elem_of_nil]%elem_of_cons.
Qed.

Lemma decode_fails_iff_witness :
  ∃ kind,
    SSDP.on_message
      (lit "NOTIFY * HTTP/1.1" ++ [CR; LF] ++ lit "FOO BAR: x" ++ [CR; LF; CR; LF])
      ex_local ex_remote
    = [SSDP.error_ (DecodeError kind)].
Proof.
  destruct (decode_fails_iff
              (lit "NOTIFY * HTTP/1.1" ++ [CR; LF] ++ lit "FOO BAR: x" ++ [CR; LF; CR; LF])
              ex_local ex_remote) as (_ & _ & _ & H & _).
  apply H. reflexivity.
Defined.

(** ** The NTS getters *)




(** ** Numbers as text *)









(** ** Headers as the caller hands them over *)

Lemma append_accepted (h h' : gmap (list ascii) (list ascii)) (name v : list ascii) :
  Headers.accepted h → Headers.append h name v = Some h' → Headers.accepted h'.
Proof.
  intros Hh. unfold Headers.append. cbv zeta.
  destruct (Headers.valid_name name) eqn:Hn; [|done]. simpl andb.
  match goal with
  | |- (if ?c then _ else _) = _ → _ => destruct c eqn:Hv; [|done]
  end.
  intros [= <-] k w [[<- <-]|[_ Hk]]%lookup_insert_Some; [|by apply Hh].
  destruct (valid_name_lower name Hn) as [H1 H2]. split; [exact H1|].
  split; [exact H2|].
  destruct (h !! toLowerCase name) as [old|] eqn:E; [|exact Hv].
  destruct (decide _); [exact Hv|].
  destruct (Hh _ _ E) as (_ & _ & Hold).
  rewrite (valid_value_app old), Hold.
  unfold Headers.valid_value in *. cbn [forallb]. rewrite Hv. reflexivity.
Qed.

Lemma to_Headers_accepted (headers : HeadersInit)
    (h : gmap (list ascii) (list ascii)) :
  init_ok headers → to_Headers headers = Some h → Headers.accepted h.
Proof.
  destruct headers as [h0|entries]; simpl.
  - by intros H [= <-].
  - intros _.
    assert (G : ∀ l h0 h1, Headers.accepted h0 →
              foldl (fun acc kv => acc ≫= fun h => Headers.append h kv.1 kv.2)
                (Some h0) l = Some h1 → Headers.accepted h1).
    { induction l as [|[k v] l IH]; intros h0 h1 H0; simpl.
      - by intros [= <-].
      - destruct (Headers.append h0 k v) as [h2|] eqn:E; simpl.
        + apply IH. by apply (append_accepted h0 h2 k v).
        + by rewrite foldl_bind_None. }
    apply G. intros k v Hkv. by rewrite lookup_empty in Hkv.
Qed.

(** Copying a caller's headers never throws; every value arrives trimmed
    and the message's other headers are kept. *)
Lemma copy_headers_accepted (p : Payload) (h : gmap (list ascii) (list ascii)) :
  Headers.accepted h →
  ∃ m, copy_headers p h = Some (with_headers p m)
     ∧ ∀ k, m !! k = match h !! k with
                     | Some v => Some (trim v)
                     | None => _headers p !! k
                     end.
Proof.
  intros Hok. unfold copy_headers.
  destruct (copy_fold (Headers.forEach h) p (forEach_NoDup h))
    as (m & Hm & Hin & Hout).
  { intros k v H%forEach_elem. exact (Hok k v H). }
  exists m. split; [exact Hm|]. intros k.
  destruct (h !! k) as [v|] eqn:E.
  - apply Hin. by apply forEach_elem.
  - apply Hout. intros ((k' & v') & -> & H%forEach_elem)%list_elem_of_fmap.
    simpl in E. congruence.
Qed.

(** ** What [search] sends *)









(** ** What [notify], [update] and [bye] send *)

Lemma notification_refused (nts service : list ascii) (headers : HeadersInit) :
  init_ok headers →
  to_Headers headers = None ∨ Headers.valid_value (trim service) = false →
  SSDP.notification nts service headers = Rejects TypeError.
Proof.
  intros Hok Hbad. unfold SSDP.notification.
  destruct (to_Headers headers) as [h|] eqn:Hh; [|done].
  destruct Hbad as [?|Hv]; [done|]. cbn [mbind option_bind].
  destruct (copy_headers_accepted Notification h
              (to_Headers_accepted headers h Hok Hh)) as (m0 & -> & _).
  cbn [mbind option_bind].
  rewrite setHeader_ok by valid_solver. cbn [mbind option_bind].
  by rewrite setHeader_fails.
Qed.

Lemma notification_sends (nts service : list ascii) (headers : HeadersInit)
    (h : gmap (list ascii) (list ascii)) :
  init_ok headers → to_Headers headers = Some h →
  Headers.valid_value (trim nts) = true →
  Headers.valid_value (trim service) = true →
  ∃ m, SSDP.notification nts service headers = Resolves (mkDatagram m None)
     ∧ notifies (trim nts) service (mkDatagram m None)
     ∧ ∀ k, k ≠ lit "host" → k ≠ lit "nt" → k ≠ lit "nts" →
         _headers m !! k = trim <$> h !! k.
Proof.
  intros Hok Hh Hn Hs. unfold SSDP.notification. rewrite Hh.
  cbn [mbind option_bind].
  destruct (copy_headers_accepted Notification h
              (to_Headers_accepted headers h Hok Hh)) as (m0 & -> & Hm0).
  cbn [mbind option_bind].
  rewrite setHeader_ok by valid_solver. cbn [mbind option_bind].
  rewrite setHeader_ok_trim by (reflexivity || assumption). cbn [mbind option_bind].
  rewrite setHeader_ok_trim by (reflexivity || assumption). cbn [mbind option_bind].
  eexists. split; [reflexivity|]. unfold notifies, Headers.get. simpl.
  norm_key "HOST"%string. norm_key "NT"%string. norm_key "NTS"%string.
  split; [repeat split; lookup_solver|].
  intros k K1 K2 K3. rewrite !lookup_insert_ne by done. rewrite Hm0.
  destruct (h !! k); [done|]. apply lookup_empty.
Qed.

(** X23. [notify], [update] and [bye] are one body with NTS ssdp:alive,
    ssdp:update and ssdp:byebye.  For each of the three, given a record
    or a [Headers] object: the promise is rejected, with nothing handed
    to the socket, when the record is one that [new Headers] refuses or
    the service type, outer white space removed, holds NUL, CR or LF;
    otherwise one Notification goes to the multicast group whose NT, NTS
    and HOST are those of the call whatever the caller put under these
    names, and under every other name the caller's headers yield (for a
    name given twice the joined value, for Set-Cookie the last one) the
    value goes out trimmed. *)
Theorem notification_spec (nts service : list ascii) (headers : HeadersInit) :
  nts ∈ [lit "ssdp:alive"; lit "ssdp:update"; lit "ssdp:byebye"] →
  init_ok headers →
  (to_Headers headers = None ∨ Headers.valid_value (trim service) = false →
   SSDP.notification nts service headers = Rejects TypeError)
  ∧ (∀ h, to_Headers headers = Some h →
       Headers.valid_value (trim service) = true →
       ∃ m, SSDP.notification nts service headers = Resolves (mkDatagram m None)
          ∧ notifies nts service (mkDatagram m None)
          ∧ ∀ k, k ≠ lit "host" → k ≠ lit "nt" → k ≠ lit "nts" →
              _headers m !! k = trim <$> h !! k)
  ∧ SSDP.notify = SSDP.notification (lit "ssdp:alive")
  ∧ SSDP.update = SSDP.notification (lit "ssdp:update")
  ∧ SSDP.bye = SSDP.notification (lit "ssdp:byebye").
Proof.
  intros Hnts Hok.
  assert (Hn : Headers.valid_value (trim nts) = true ∧ trim nts = nts).
  { repeat (apply elem_of_cons in Hnts as [->|Hnts]; [split; reflexivity|]).
    by apply elem_of_nil in Hnts. }
  destruct Hn as [Hn Ht].
  split; [by apply notification_refused|].
  split; [|done].
  intros h Hh Hs.
  destruct (notification_sends nts service headers h Hok Hh Hn Hs)
    as (m & E & Hnot & Hk).
  rewrite Ht in Hnot. by exists m.
Qed.

Lemma notification_spec_witness :
  SSDP.bye (lit "urn:test:1") (init_record [(lit "bad name", lit "x")])
  = Rejects TypeError
  ∧ ∃ m, SSDP.notify (lit "urn:test:1")
           (init_record [(lit "Set-Cookie", lit "a"); (lit "set-cookie", lit "b")])
         = Resolves (mkDatagram m None)
       ∧ _headers m !! lit "set-cookie" = Some (lit "b").
Proof.
  split.
  - destruct (notification_spec (lit "ssdp:byebye") (lit "urn:test:1")
                (init_record [(lit "bad name", lit "x")])) as [H _].
    + repeat constructor.
    + exact I.
    + apply H. left. reflexivity.
  - destruct (notification_spec (lit "ssdp:alive") (lit "urn:test:1")
                (init_record [(lit "Set-Cookie", lit "a"); (lit "set-cookie", lit "b")]))
      as (_ & H & _).
    + repeat constructor.
    + exact I.
    + destruct (H {[lit "set-cookie" := lit "b"]}) as (m & E & _ & Hk);
        [vm_compute; reflexivity | reflexivity |].
      exists m. split; [exact E|]. rewrite Hk by discriminate. reflexivity.
Defined.

(** ** The root device and the identity target *)






(** ** Withdrawing a service *)








(** ** Announcing with headers of the Advertiser's own

    [announce] keeps the [Headers] object it is given and [notify] writes
    the USN into that very object.  What follows is about headers given
    as a record: [new Headers(record)] is then an object no one else
    holds, and the Service Table read entry by entry says all there is to
    say. *)







(** ** The sweep and the farewell *)






